(** * python-scrapers: worker pool, retry policy and two-stage pipeline

    A shallow embedding of [src/core/async_scraper.py] and of the listing
    parser of [src/adidas_id.py].

    Conventions.
    - Python integers are [Z].  The [config] module is not part of the
      sources; its four constants are the fields of the record [config].
    - A coroutine that may raise is a state-passing function returning a
      [res]; the state is the world the coroutine acts on (browser and
      remote site), left abstract.
    - The calls and waits of a coroutine are recorded in a trace of events,
      one constructor per [await] site of the source.  The [print] calls
      are left out.
    - The cooperative scheduler of asyncio is a labelled transition system
      with one label per resumption of a task. *)

From Stdlib Require Import ZArith.
From stdpp Require Import base tactics option list strings gmap.

Local Open Scope Z_scope.
Local Set Warnings "-register-all".

(** ** Python values *)

(** The values an extractor hands back: [None], strings, integers, lists
    and dictionaries with string keys. *)
Inductive pyval : Type :=
| PyNone
| PyStr (s : string)
| PyInt (z : Z)
| PyList (elems : list pyval)
| PyDict (entries : list (string * pyval)).

(** [bool(v)], the test behind [if result:]. *)
Definition truthy (v : pyval) : bool :=
  match v with
  | PyNone => false
  | PyStr s => negb (String.eqb s "")
  | PyInt z => negb (z =? 0)
  | PyList elems => negb (Nat.eqb (length elems) 0)
  | PyDict entries => negb (Nat.eqb (length entries) 0)
  end.

(** [len(xs)] *)
Definition len {A} (xs : list A) : Z := Z.of_nat (length xs).

(** [range(lo, hi)] *)
Definition range (lo hi : Z) : list Z :=
  map (fun i => lo + Z.of_nat i) (seq 0 (Z.to_nat (hi - lo))).

(** ** Exceptions *)

(** The errors of the taxonomy, and the cancellation signal of asyncio,
    which derives from [BaseException] only. *)
Inductive exn : Type :=
| NavigationError
| ExtractionError
| TimeoutError
| CancelledError.

(** [isinstance(e, Exception)], the filter of [except Exception]. *)
Definition isinstance_Exception (e : exn) : bool :=
  match e with
  | CancelledError => false
  | _ => true
  end.

Inductive res (A : Type) : Type :=
| Ret (a : A)
| Raise (e : exn).
Arguments Ret {A} a.
Arguments Raise {A} e.

(** ** config *)

Record config : Type := mkConfig {
  MAX_RETRIES : Z;
  RETRY_DELAY_FACTOR : Z;
  EXCLUDED_RES : gset string;
  WORKER_LIMIT : Z
}.

(** ** core/types.py *)

Record ScrapeResult : Type := mkScrapeResult {
  url : string;
  is_successful : bool;
  data : pyval
}.

(** ** Events *)

(** Events of a retried call: [Attempt k] marks the invocation of [func]
    with [attempt = k] (line 18), [Backoff d] is
    [asyncio.sleep(delay_duration)] (line 23), [Inner i] is an event of
    [func] itself. *)
Inductive retry_event (I : Type) : Type :=
| Attempt (k : Z)
| Backoff (d : Z)
| Inner (i : I).
Arguments Attempt {I} k.
Arguments Backoff {I} d.
Arguments Inner {I} i.

(** Events of the body of [_load_page]: [Goto u] is [page.goto(u)]
    (line 160), [Extract t] is the time spent inside
    [asyncio.wait_for(parser(page), 3)] (line 164). *)
Inductive page_event : Type :=
| Goto (u : string)
| Extract (t : Z).

(** A coroutine function over the world [W], emitting events [I]. *)
Definition coroutine (W I : Type) : Type := W -> res pyval * W * list I.

(** ** _retry *)

Section retry.
Context {W I : Type}.
Variable cfg : config.
Variable max_retries : Z.
Variable func : coroutine W I.

(** The [while attempt < max_retries] loop of [wrapper]; [fuel] bounds
    the number of iterations and [None] means the fuel ran out. *)
Fixpoint retry_loop (fuel : nat) (attempt : Z) (w : W)
    (log : list (retry_event I))
  : option (res pyval * W * list (retry_event I)) :=
  match fuel with
  | O => None
  | S fuel' =>
      if attempt <? max_retries then
        let attempt := attempt + 1 in
        match func w with
        | (Ret v, w', evs) =>
            Some (Ret v, w', log ++ Attempt attempt :: map Inner evs)
        | (Raise error, w', evs) =>
            let log := log ++ Attempt attempt :: map Inner evs in
            if isinstance_Exception error then
              let delay_duration := attempt * RETRY_DELAY_FACTOR cfg in
              retry_loop fuel' attempt w' (log ++ [Backoff delay_duration])
            else Some (Raise error, w', log)
        end
      else Some (Ret PyNone, w, log)
  end.

(** [attempt] starts at 0 and grows by one per iteration, so
    [max_retries] iterations and the final test are enough. *)
Definition _retry (w : W) : option (res pyval * W * list (retry_event I)) :=
  retry_loop (S (Z.to_nat max_retries)) 0 w [].
End retry.

(** *** Reading a trace *)

Section traces.
Context {I : Type}.

Definition backoffs (log : list (retry_event I)) : list Z :=
  omap (fun ev => match ev with Backoff d => Some d | _ => None end) log.

Definition attempts (log : list (retry_event I)) : list Z :=
  omap (fun ev => match ev with Attempt k => Some k | _ => None end) log.

(** cumulative backoff wait *)
Definition total_backoff (log : list (retry_event I)) : Z :=
  foldr Z.add 0 (backoffs log).

(** The first [Backoff] that comes before any further [Attempt]. *)
Fixpoint next_backoff (log : list (retry_event I)) : option Z :=
  match log with
  | [] => None
  | Backoff d :: _ => Some d
  | Attempt _ :: _ => None
  | Inner _ :: rest => next_backoff rest
  end.

(** The backoff waited after attempt [k], before any further attempt. *)
Fixpoint delay_after (k : Z) (log : list (retry_event I)) : option Z :=
  match log with
  | [] => None
  | Attempt j :: rest =>
      if j =? k then next_backoff rest else delay_after k rest
  | _ :: rest => delay_after k rest
  end.

(** The backoff waited before attempt [k] is executed: the [Backoff]
    between the previous attempt, if any, and [Attempt k]. *)
Fixpoint delay_before_from (last : option Z) (k : Z)
    (log : list (retry_event I)) : option Z :=
  match log with
  | [] => None
  | Attempt j :: rest =>
      if j =? k then last else delay_before_from None k rest
  | Backoff d :: rest => delay_before_from (Some d) k rest
  | Inner _ :: rest => delay_before_from last k rest
  end.

Definition delay_before (k : Z) (log : list (retry_event I)) : option Z :=
  delay_before_from None k log.

Definition extract_times (log : list (retry_event page_event)) : list Z :=
  omap (fun ev => match ev with Inner (Extract t) => Some t | _ => None end)
       log.
End traces.

(** ** The collaborators of _load_page *)

(** What awaiting [parser(page)] does, and how it takes a cancellation.
    - [Completes elapsed r] ends after [elapsed] time units, returning or
      raising; cancelled before that, it ends at once with the
      cancellation.
    - [Pending] never ends by itself; cancelled, it ends at once with the
      cancellation.
    - [Resists extra r] has not ended when it is cancelled, goes on for
      [extra] time units and then ends with [r]: with [CancelledError]
      when it lets the cancellation through after some cleaning up, with a
      value or another error when it catches the cancellation.
    An awaitable that never ends once cancelled is left out: every call
    is taken to end. *)
Inductive awaitable : Type :=
| Completes (elapsed : Z) (r : res pyval)
| Pending
| Resists (extra : Z) (r : res pyval).

(** [asyncio.wait_for(aw, timeout)]: the outcome and the time spent.  An
    awaitable that has not ended when [timeout] has passed is cancelled,
    and [wait_for] waits for it to end: it raises [TimeoutError] when the
    awaitable ends with the cancellation, and otherwise returns what the
    awaitable returns or raises what it raises.  An awaitable that ends at
    the very moment the timeout fires is counted as timed out. *)
Definition wait_for (aw : awaitable) (timeout : Z) : res pyval * Z :=
  match aw with
  | Completes elapsed r =>
      if elapsed <? timeout then (r, elapsed) else (Raise TimeoutError, timeout)
  | Pending => (Raise TimeoutError, timeout)
  | Resists extra r =>
      match r with
      | Raise CancelledError => (Raise TimeoutError, timeout + extra)
      | _ => (r, timeout + extra)
      end
  end.

(** The time an awaitable takes to end once it is cancelled. *)
Definition cancel_latency (aw : awaitable) : Z :=
  match aw with
  | Resists extra _ => extra
  | _ => 0
  end.

(** The awaitable ends as soon as it is cancelled. *)
Definition ends_when_cancelled (aw : awaitable) : bool :=
  match aw with
  | Resists _ _ => false
  | _ => true
  end.

(** The browser: [page_goto u] is [page.goto(u, wait_until="networkidle")]. *)
Class Playwright (W : Type) : Type := {
  page_goto : string -> W -> res unit * W
}.

(** An extractor: what [parser(page)] does in a given world. *)
Definition extractor (W : Type) : Type := W -> awaitable * W.

(** ** AsyncPlaywrightScraper *)

Inductive route_action : Type := Abort | Continue.

#[export] Instance route_action_eq_dec : EqDecision route_action.
Proof. solve_decision. Defined.

Record Route : Type := mkRoute {
  request_url : string;
  resource_type : string
}.

Section scraper.
Context {W : Type} `{!Playwright W}.
Variable cfg : config.

(** [_handle_requests] *)
Definition _handle_requests (route : Route) : route_action :=
  if bool_decide (resource_type route ∈ EXCLUDED_RES cfg) then Abort
  else Continue.

(** The body of [_load_page], lines 157-170. *)
Definition load_page_body (u : string) (parser : extractor W)
  : coroutine W page_event :=
  fun w =>
    match page_goto u w with
    | (Raise error, w1) => (Raise error, w1, [Goto u])
    | (Ret _, w1) =>
        let '(aw, w2) := parser w1 in
        let '(result, spent) := wait_for aw 3 in
        (result, w2, [Goto u; Extract spent])
    end.

(** [_load_page], decorated with [@_retry()]. *)
Definition _load_page (u : string) (parser : extractor W) (w : W)
  : option (res pyval * W * list (retry_event page_event)) :=
  _retry cfg (MAX_RETRIES cfg) (load_page_body u parser) w.

(** What [_worker] appends to [session_results], lines 132-139. *)
Definition record_outcome (u : string) (result : pyval) : ScrapeResult :=
  if truthy result
  then {| url := u; is_successful := true; data := result |}
  else {| url := u; is_successful := false; data := result |}.
End scraper.

(** ** asyncio.Queue *)

(** A job: [(index, len(urls), url)]. *)
Definition job : Type := Z * Z * string.
Definition job_url (j : job) : string := j.2.

Record Queue : Type := mkQueue {
  maxsize : Z;
  items : list job;
  unfinished_tasks : Z
}.

Definition Queue_new (maxsize : Z) : Queue :=
  {| maxsize := maxsize; items := []; unfinished_tasks := 0 |}.

(** [Queue.full]: a queue with [maxsize <= 0] is never full. *)
Definition full (q : Queue) : bool :=
  (0 <? maxsize q) && (maxsize q <=? len (items q)).

(** [put]: [None] when the caller has to wait. *)
Definition put (j : job) (q : Queue) : option Queue :=
  if full q then None
  else Some {| maxsize := maxsize q; items := items q ++ [j];
               unfinished_tasks := unfinished_tasks q + 1 |}.

(** [get]: [None] when the caller has to wait. *)
Definition get (q : Queue) : option (job * Queue) :=
  match items q with
  | [] => None
  | j :: rest =>
      Some (j, {| maxsize := maxsize q; items := rest;
                  unfinished_tasks := unfinished_tasks q |})
  end.

(** [task_done]: [None] is the [ValueError] of a call too many. *)
Definition task_done (q : Queue) : option Queue :=
  if unfinished_tasks q <=? 0 then None
  else Some {| maxsize := maxsize q; items := items q;
               unfinished_tasks := unfinished_tasks q - 1 |}.

(** [join] returns once every item put has been acknowledged. *)
Definition join_ready (q : Queue) : bool := unfinished_tasks q =? 0.

(** ** _create_session and _worker as a transition system *)

(** Where a worker task stands: [Starting] is before [context.new_page()]
    has returned, [Waiting] is inside [await queue.get()], [Loading j] is
    inside [await self._load_page(...)] for job [j], [Sleeping j] is inside
    the jitter sleep that precedes [queue.task_done()]. *)
Inductive phase : Type :=
| Starting
| Waiting
| Loading (j : job)
| Sleeping (j : job).

(** A task stops running when it ends with an exception or is cancelled. *)
Record task : Type := mkTask {
  tab_id : Z;
  at_phase : phase;
  running : bool
}.

(** Where [_create_session] stands: [Feeding pending] is inside the
    [for ... await queue.put(...)] loop and then inside
    [await queue.join()], with [pending] still to be put; [Returned] is
    after [return session_result]. *)
Inductive main_pc : Type :=
| Feeding (pending : list job)
| Returned.

Record session : Type := mkSession {
  queue : Queue;
  tabs : list task;
  session_result : list ScrapeResult;
  main : main_pc
}.

(** One label per resumption of a task by the event loop. *)
Inductive label (W : Type) : Type :=
| NewPage (i : nat)          (* worker [i]: [context.new_page()] returns *)
| Put                        (* main: [queue.put] returns *)
| Get (i : nat)              (* worker [i]: [queue.get] returns *)
| Load (i : nat) (env : W)   (* worker [i]: [_load_page] ends, run in [env] *)
| TaskDone (i : nat)         (* worker [i]: sleep over, [queue.task_done()] *)
| Die (i : nat)              (* worker [i] ends with an uncaught exception *)
| Join.                      (* main: [queue.join()] returns *)
Arguments NewPage {W} i.
Arguments Put {W}.
Arguments Get {W} i.
Arguments Load {W} i env.
Arguments TaskDone {W} i.
Arguments Die {W} i.
Arguments Join {W}.

Definition set_phase (p : phase) (t : task) : task :=
  {| tab_id := tab_id t; at_phase := p; running := running t |}.

Definition stop (t : task) : task :=
  {| tab_id := tab_id t; at_phase := at_phase t; running := false |}.

Section create_session.
Context {W : Type} `{!Playwright W}.
Variable cfg : config.
Variable parser : extractor W.

(** [new_tabs_count], line 92. *)
Definition new_tabs_count (urls : list string) : Z :=
  if len urls <? WORKER_LIMIT cfg then len urls else WORKER_LIMIT cfg.

(** [enumerate(urls, 1)] tagged with [len(urls)], lines 102-103. *)
Definition jobs (urls : list string) : list job :=
  imap (fun index u => (Z.of_nat index + 1, len urls, u)) urls.

(** The state when the first [await queue.put] is reached: the queue is
    created (line 80) and the workers are spawned (lines 93-99). *)
Definition create_session_init (urls : list string) : session :=
  {| queue := Queue_new (WORKER_LIMIT cfg);
     tabs := map (fun id => {| tab_id := id; at_phase := Starting;
                               running := true |})
                 (range 1 (new_tabs_count urls + 1));
     session_result := [];
     main := Feeding (jobs urls) |}.

Definition with_tab (i : nat) (t : task) (st : session) : session :=
  {| queue := queue st; tabs := <[i := t]> (tabs st);
     session_result := session_result st; main := main st |}.

Definition with_queue (q : Queue) (st : session) : session :=
  {| queue := q; tabs := tabs st;
     session_result := session_result st; main := main st |}.

(** A step of worker [i], lines 124-146. *)
Definition worker_step (l : label W) (i : nat) (t : task) (st : session)
  : option session :=
  if negb (running t) then None else
  match l, at_phase t with
  | Die _, _ => Some (with_tab i (stop t) st)
  | NewPage _, Starting => Some (with_tab i (set_phase Waiting t) st)
  | Get _, Waiting =>
      '(j, q) ← get (queue st);
      Some (with_queue q (with_tab i (set_phase (Loading j) t) st))
  | Load _ env, Loading j =>
      '(r, _, _) ← _load_page cfg (job_url j) parser env;
      match r with
      | Ret result =>
          Some {| queue := queue st;
                  tabs := <[i := set_phase (Sleeping j) t]> (tabs st);
                  session_result :=
                    session_result st ++ [record_outcome (job_url j) result];
                  main := main st |}
      | Raise _ => Some (with_tab i (stop t) st)
      end
  | TaskDone _, Sleeping j =>
      q ← task_done (queue st);
      Some (with_queue q (with_tab i (set_phase Waiting t) st))
  | _, _ => None
  end.

(** A step of the session; [None] when the label is not enabled. *)
Definition step (l : label W) (st : session) : option session :=
  match l with
  | Put =>
      match main st with
      | Feeding (j :: pending) =>
          q ← put j (queue st);
          Some {| queue := q; tabs := tabs st;
                  session_result := session_result st;
                  main := Feeding pending |}
      | _ => None
      end
  | Join =>
      match main st with
      | Feeding [] =>
          if join_ready (queue st)
          then Some {| queue := queue st; tabs := map stop (tabs st);
                       session_result := session_result st;
                       main := Returned |}
          else None
      | _ => None
      end
  | NewPage i | Get i | Load i _ | TaskDone i | Die i =>
      t ← tabs st !! i;
      worker_step l i t st
  end.

Fixpoint run (ls : list (label W)) (st : session) : option session :=
  match ls with
  | [] => Some st
  | l :: ls' => st' ← step l st; run ls' st'
  end.

(** What [_create_session] returns, once it has. *)
Definition returned (st : session) : option (list ScrapeResult) :=
  match main st with
  | Returned => Some (session_result st)
  | Feeding _ => None
  end.

(** [_create_session(urls, parser)] under the schedule [ls]. *)
Definition _create_session (urls : list string) (ls : list (label W))
  : option (list ScrapeResult) :=
  st ← run ls (create_session_init urls); returned st.
End create_session.

(** The jobs a worker pool holds. *)
Definition loading_of (t : task) : list job :=
  match at_phase t with Loading j => [j] | _ => [] end.
Definition sleeping_of (t : task) : list job :=
  match at_phase t with Sleeping j => [j] | _ => [] end.

(** ** AsyncEcommPlaywrightScraper.fetch_products *)

Section pipeline.
Context {S : Type}.

(** One call of [self._create_session(urls, self._product_parser)]: the
    list it returns and the next state of the world, or [None] when the
    session never returns. *)
Variable product_session :
  list string -> S -> option (list ScrapeResult * S).

(** The [while remaining_retries and urls] loop, lines 198-210.
    [remaining_retries] starts at the literal 3 and only counts down. *)
Fixpoint fetch_products_loop (remaining_retries : nat)
    (urls : list string) (result : list ScrapeResult) (s : S)
  : option (list ScrapeResult * S) :=
  match remaining_retries, urls with
  | O, _ | _, [] => Some (result, s)
  | Datatypes.S remaining_retries, _ :: _ =>
      '(attempt, s) ← product_session urls s;
      let result :=
        result ++ filter (fun item => is_successful item = true) attempt in
      let urls :=
        map url (filter (fun item => is_successful item = false) attempt) in
      match urls with
      | [] => Some (result, s)
      | _ :: _ =>
          let result :=
            if Nat.eqb remaining_retries 0 then result ++ attempt
            else result in
          fetch_products_loop remaining_retries urls result s
      end
  end.

(** [fetch_products]: the value stored in [self.products]. *)
Definition fetch_products (urls : list string) (s : S)
  : option (list ScrapeResult * S) :=
  fetch_products_loop 3 urls [] s.
End pipeline.

(** ** AdidasScraper._listing_parser *)

(** An [<a>] element: whether it is visible and its [href] attribute, if
    it has one. *)
Record anchor : Type := mkAnchor {
  visible : bool;
  href : option string
}.

(** What the listing parser reads of a rendered page: the [href]s of
    [.ProductCard a.gl-product-card__link], and the elements matching
    [a.CategoryPaginationLink] with text [Next], in document order. *)
Record dom : Type := mkDom {
  product_cards : list (option string);
  next_links : list anchor
}.

(** A listing source: the page behind each address; [None] is an address
    that fails to load. *)
Definition site : Type := string -> option dom.

(** [bool(h)] for [h : Optional[str]] *)
Definition truthy_str (h : option string) : bool :=
  match h with
  | Some s => negb (String.eqb s "")
  | None => false
  end.

Definition get_urls_on_page (page : dom) : list (option string) :=
  let hrefs := product_cards page in
  if negb (Nat.eqb (length hrefs) 0) then hrefs else [].

(** [.first] is the head of the matches; [is_visible()] of a locator with
    no match is [False]. *)
Definition get_next_page_url (page : dom) : option string :=
  match next_links page with
  | next_button :: _ =>
      if visible next_button then href next_button else Some ""
  | [] => Some ""
  end.

Section listing.
Variable web : site.

(** The [while True] loop, lines 49-58; [None] means the fuel ran out. *)
Fixpoint listing_loop (fuel : nat) (page : dom)
    (product_urls : list (option string))
  : option (res (list (option string)) * dom) :=
  match fuel with
  | O => None
  | S fuel' =>
      let product_urls := product_urls ++ get_urls_on_page page in
      match get_next_page_url page with
      | Some next_page_url =>
          if truthy_str (Some next_page_url) then
            match web next_page_url with
            | Some page' => listing_loop fuel' page' product_urls
            | None => Some (Raise NavigationError, page)
            end
          else Some (Ret product_urls, page)
      | None => Some (Ret product_urls, page)
      end
  end.

Definition _listing_parser (fuel : nat) (page : dom)
  : option (res (list (option string)) * dom) :=
  listing_loop fuel page [].

(** The pages a crawl goes through, from the page it starts on to the
    page it stops on. *)
Inductive crawl : dom -> list dom -> Prop :=
| crawl_stop page :
    truthy_str (get_next_page_url page) = false ->
    crawl page [page]
| crawl_next page next_page_url page' pages :
    get_next_page_url page = Some next_page_url ->
    truthy_str (Some next_page_url) = true ->
    web next_page_url = Some page' ->
    crawl page' pages ->
    crawl page (page :: pages).
End listing.

(** A visible "next page" control: some element matching the pagination
    selector is visible. *)
Definition has_visible_next (page : dom) : bool :=
  existsb visible (next_links page).

(** The loop leaves a page without navigating any further. *)
Definition stops_at (page : dom) : bool :=
  negb (truthy_str (get_next_page_url page)).

(** ** Attempts of a wrapped coroutine *)

Section attempts.
Context {W I : Type}.
Variable func : coroutine W I.

(** The world after [n] calls of [func]. *)
Fixpoint world_after (n : nat) (w : W) : W :=
  match n with
  | O => w
  | S n' => world_after n' (func w).1.2
  end.

(** What the [k]-th call of [func] does, counting from 1. *)
Definition result_of_attempt (w : W) (k : nat) : res pyval :=
  (func (world_after (pred k) w)).1.1.

(** The call raised an error that [except Exception] catches. *)
Definition caught (r : res pyval) : bool :=
  match r with
  | Raise error => isinstance_Exception error
  | Ret _ => false
  end.

(** The trace of [m] caught attempts in a row, the first of them being
    attempt number [a + 1]. *)
Fixpoint failed_log (delay_factor : Z) (m : nat) (a : Z) (w : W)
  : list (retry_event I) :=
  match m with
  | O => []
  | S m' =>
      Attempt (a + 1) :: map Inner (func w).2
        ++ Backoff ((a + 1) * delay_factor)
        :: failed_log delay_factor m' (a + 1) (func w).1.2
  end.
End attempts.

(** ** Why a page load fails *)

(** The three failure causes of one run of the body of [_load_page].  A
    timeout is one whose cancellation the extractor ends with, at once or
    after some time; an extractor that answers the cancellation with an
    exception of its own fails by that exception. *)
Inductive fails_by {W : Type} `{!Playwright W}
    (u : string) (parser : extractor W) (w : W) : exn -> Prop :=
| by_navigation error w1 :
    page_goto u w = (Raise error, w1) ->
    isinstance_Exception error = true ->
    fails_by u parser w NavigationError
| by_extractor error elapsed x w1 w2 :
    page_goto u w = (Ret x, w1) ->
    parser w1 = (Completes elapsed (Raise error), w2) ->
    elapsed < 3 ->
    isinstance_Exception error = true ->
    fails_by u parser w ExtractionError
| by_timeout elapsed r x w1 w2 :
    page_goto u w = (Ret x, w1) ->
    parser w1 = (Completes elapsed r, w2) ->
    3 <= elapsed ->
    fails_by u parser w TimeoutError
| by_never_ending x w1 w2 :
    page_goto u w = (Ret x, w1) ->
    parser w1 = (Pending, w2) ->
    fails_by u parser w TimeoutError
| by_late_cancellation extra x w1 w2 :
    page_goto u w = (Ret x, w1) ->
    parser w1 = (Resists extra (Raise CancelledError), w2) ->
    fails_by u parser w TimeoutError
| by_late_extractor error extra x w1 w2 :
    page_goto u w = (Ret x, w1) ->
    parser w1 = (Resists extra (Raise error), w2) ->
    isinstance_Exception error = true ->
    fails_by u parser w ExtractionError.

(** ** Scripted collaborators, for running the model *)

(** What one page load is going to do. *)
Inductive load_script : Type :=
| NavFails (error : exn)
| Parses (aw : awaitable).

(** A browser that follows a script, one entry per page load. *)
#[export] Instance scripted_browser : Playwright (list load_script) := {
  page_goto _ w :=
    match w with
    | NavFails error :: rest => (Raise error, rest)
    | _ => (Ret (), w)
    end
}.

Definition scripted_parser : extractor (list load_script) :=
  fun w =>
    match w with
    | Parses aw :: rest => (aw, rest)
    | _ => (Pending, w)
    end.

(** A coroutine that raises [ExtractionError] whenever it is called. *)
Definition always_throws : coroutine unit unit :=
  fun w => (Raise ExtractionError, w, []).

(** ** Invariant of a session *)

Definition loading (ts : list task) : list job := ts ≫= loading_of.

Definition sleeping (ts : list task) : list job := ts ≫= sleeping_of.

Definition pending_of (m : main_pc) : list job :=
  match m with
  | Feeding pending => pending
  | Returned => []
  end.

(** What holds of a session at every point of every schedule.
    - No address is lost or doubled: the addresses already recorded, those
      being loaded, those in the queue and those still to be put are, taken
      together, the addresses submitted.
    - The queue counts as unfinished exactly the jobs it holds and the jobs
      taken by a worker that has not acknowledged them.
    - After the return, every job is acknowledged and no task runs. *)
Record session_inv (urls : list string) (st : session) : Prop := {
  inv_conserved :
    map url (session_result st)
      ++ map job_url (loading (tabs st))
      ++ map job_url (items (queue st))
      ++ map job_url (pending_of (main st))
    ≡ₚ urls;
  inv_unfinished :
    unfinished_tasks (queue st)
    = len (items (queue st)) + len (loading (tabs st))
      + len (sleeping (tabs st));
  inv_returned :
    main st = Returned ->
    unfinished_tasks (queue st) = 0
    /\ Forall (fun t => running t = false) (tabs st)
}.

(** ** Sessions under given schedules *)

(** The sessions of [fetch_products] driven by schedules: each call of
    [_create_session] runs under the next schedule of the list. *)
Definition scheduled_session {W : Type} `{!Playwright W} (cfg : config)
    (parser : extractor W)
  : list string -> list (list (label W))
    -> option (list ScrapeResult * list (list (label W))) :=
  fun urls schedules =>
    match schedules with
    | [] => None
    | ls :: rest =>
        results ← _create_session cfg parser urls ls;
        Some (results, rest)
    end.

(** ** Navigations of a page load *)

(** The addresses [page.goto] was called with, in a trace of [_load_page]. *)
Definition gotos (log : list (retry_event page_event)) : list string :=
  omap (fun ev => match ev with Inner (Goto u) => Some u | _ => None end) log.

(** ** AsyncEcommPlaywrightScraper: the object and its methods *)

(** The attributes set by [__init__], lines 62-64 and 174-177. *)
Record EcommScraper : Type := mkEcommScraper {
  start_url : string;
  base_url : string;
  listings : pyval;
  products : list ScrapeResult
}.

Definition EcommScraper_init (start_url base_url : string) : EcommScraper :=
  {| start_url := start_url; base_url := base_url;
     listings := PyList []; products := [] |}.

(** The addresses of a listing, when every entry of it is a string.  A
    listing with another kind of entry (an [href] that was missing) is not
    covered: the job of such an entry has no string address. *)
Definition listing_urls (v : pyval) : option (list string) :=
  match v with
  | PyList elems =>
      mapM (fun elem => match elem with PyStr s => Some s | _ => None end)
           elems
  | _ => None
  end.

(** How [start] ends: it returns the products, or a session of it never
    returns, or the listing is one that [listing_urls] does not cover. *)
Inductive outcome_of_start (S : Type) : Type :=
| Started (products : list ScrapeResult) (self : EcommScraper) (s : S)
| Stuck
| NotCovered.
Arguments Started {S} products self s.
Arguments Stuck {S}.
Arguments NotCovered {S}.

Section ecomm.
Context {S : Type}.

(** [self._create_session(urls, self._listing_parser)] and
    [self._create_session(urls, self._product_parser)]: the list returned
    and the next state of the world, or [None] when the session never
    returns. *)
Variable listing_session :
  list string -> S -> option (list ScrapeResult * S).
Variable product_session :
  list string -> S -> option (list ScrapeResult * S).

(** [fetch_listing], lines 187-193. *)
Definition fetch_listing (urls : list string) (self : EcommScraper) (s : S)
  : option (EcommScraper * S) :=
  '(result, s) ← listing_session urls s;
  match result with
  | first :: _ =>
      Some ({| start_url := start_url self; base_url := base_url self;
               listings := data first; products := products self |}, s)
  | [] => Some (self, s)
  end.

(** [fetch_products] with its assignment to [self.products], line 212. *)
Definition fetch_products_into (urls : list string) (self : EcommScraper)
    (s : S) : option (EcommScraper * S) :=
  '(result, s) ← fetch_products product_session urls s;
  Some ({| start_url := start_url self; base_url := base_url self;
           listings := listings self; products := result |}, s).

(** [start], lines 214-219. *)
Definition start (self : EcommScraper) (s : S) : outcome_of_start S :=
  match fetch_listing [start_url self] self s with
  | None => Stuck
  | Some (self, s) =>
      if truthy (listings self) then
        match listing_urls (listings self) with
        | None => NotCovered
        | Some urls =>
            match fetch_products_into urls self s with
            | None => Stuck
            | Some (self, s) => Started (products self) self s
            end
        end
      else Started (products self) self s
  end.
End ecomm.

(** ** Pages a listing crawl goes through *)

(** [page_after web page page']: the loop, on [page], navigates to
    [page']. *)
Definition page_after (web : site) (page page' : dom) : Prop :=
  exists next_page_url,
    get_next_page_url page = Some next_page_url
    /\ truthy_str (Some next_page_url) = true
    /\ web next_page_url = Some page'.

(** The next link of [page] is followed and fails to load. *)
Definition broken_next (web : site) (page : dom) : Prop :=
  exists next_page_url,
    get_next_page_url page = Some next_page_url
    /\ truthy_str (Some next_page_url) = true
    /\ web next_page_url = None.

(** [walk web page pages page']: the loop goes from [page] to [page']
    through [pages], [page] included and [page'] not. *)
Inductive walk (web : site) : dom -> list dom -> dom -> Prop :=
| walk_here page : walk web page [] page
| walk_on page page1 pages page' :
    page_after web page page1 ->
    walk web page1 pages page' ->
    walk web page (page :: pages) page'.

(** ** AdidasScraper._product_parser *)

(** A coroutine that returns a value of type [A] or raises. *)
Definition action (W A : Type) : Type := W -> res A * W.

Definition done_with {W A : Type} (a : A) : action W A :=
  fun w => (Ret a, w).

Definition raising {W A : Type} (error : exn) : action W A :=
  fun w => (Raise error, w).

Definition and_then {W A B : Type} (m : action W A) (k : A -> action W B)
  : action W B :=
  fun w =>
    match m w with
    | (Ret a, w') => k a w'
    | (Raise error, w') => (Raise error, w')
    end.

Notation "'await' x ':=' m 'in' k" :=
  (and_then m (fun x => k))
  (at level 10, x name, m at level 100, k at level 200).

(** The locators of Playwright the parser uses, on a page in the world
    [W].  The elements returned by [all] are numbered in document order. *)
Class Locators (W : Type) : Type := {
  locator_wait_for : string -> action W unit;
  locator_text_content : string -> action W (option string);
  locator_count : string -> action W Z;
  locator_all : string -> action W (list nat);
  locator_get_attribute : string -> string -> action W (option string);
  locator_click : string -> nat -> action W unit
}.

(** The characters [0] to [9]. *)
Definition is_digit (c : Ascii.ascii) : bool :=
  ((48 <=? Ascii.nat_of_ascii c) && (Ascii.nat_of_ascii c <=? 57))%nat.

(** [re.sub(r"[^0-9]", "", price)] *)
Fixpoint sub_non_digits (price : string) : string :=
  match price with
  | EmptyString => EmptyString
  | String c rest =>
      if is_digit c then String c (sub_non_digits rest)
      else sub_non_digits rest
  end.

Fixpoint decimal_value (acc : Z) (digits : string) : Z :=
  match digits with
  | EmptyString => acc
  | String c rest =>
      decimal_value (10 * acc + (Z.of_nat (Ascii.nat_of_ascii c) - 48)) rest
  end.

(** [int(digits)] for a string of digits: the empty string is not a
    literal, and more than 4300 digits exceed the limit the interpreter
    sets by default on the conversion; both raise [ValueError], an
    [ExtractionError] in the taxonomy. *)
Definition int_of_digits (digits : string) : res Z :=
  if Nat.eqb (String.length digits) 0 then Raise ExtractionError
  else if (4300 <? String.length digits)%nat then Raise ExtractionError
  else Ret (decimal_value 0 digits).

(** [raw_price], lines 63-65; [re.sub] raises [TypeError] on [None]. *)
Definition raw_price (price : option string) : res Z :=
  match price with
  | None => Raise ExtractionError
  | Some price => int_of_digits (sub_non_digits price)
  end.

Definition py_optional_str (s : option string) : pyval :=
  match s with
  | Some s => PyStr s
  | None => PyNone
  end.

Section product_parser.
Context {W : Type} `{!Locators W}.

(** [str.strip], left abstract. *)
Variable strip : string -> string.

(** The [for img in thumbnails] loop of [get_image_urls], lines 74-79. *)
Fixpoint image_loop (thumbnails : list nat)
    (img_urls : list (option string)) : action W (list (option string)) :=
  match thumbnails with
  | [] => done_with img_urls
  | img :: thumbnails =>
      await img_url :=
        locator_get_attribute "img.TranslateOnCursorMove-ZoomedImage" "src" in
      await _ := locator_click "button.ProductGallery-PaginationItem" img in
      image_loop thumbnails (img_urls ++ [img_url])
  end.

(** [get_image_urls], lines 67-81. *)
Definition get_image_urls : action W (list (option string)) :=
  await thumbnails := locator_all "button.ProductGallery-PaginationItem" in
  image_loop thumbnails [].

(** [_product_parser], lines 62-113. *)
Definition _product_parser : action W pyval :=
  await _ := locator_wait_for "section.ProductPage-Content" in
  await product_name := locator_text_content ".ProductInformation-Name" in
  await product_color :=
    locator_text_content "h5.ProductDescription-Color" in
  await product_desc :=
    locator_text_content ".ProductInformation-ShortDescription" in
  await sales :=
    locator_count ".ProductDescription-Price .gl-price-item--sale" in
  await product_price :=
    (if 0 <? sales
     then locator_text_content
            ".ProductDescription-Price .gl-price-item--sale"
     else locator_text_content ".ProductDescription-Price .gl-price-item") in
  match raw_price product_price with
  | Raise error => raising error
  | Ret price =>
      match product_desc with
      | None => raising ExtractionError
      | Some product_desc =>
          await img_urls := get_image_urls in
          done_with
            (PyDict [("name", py_optional_str product_name);
                     ("color", py_optional_str product_color);
                     ("price", PyInt price);
                     ("description", PyStr (strip product_desc));
                     ("img_urls", PyList (map py_optional_str img_urls))])
      end
  end.
End product_parser.

(** A product gallery: the image shown, and the image each thumbnail
    shows once clicked. *)
Record gallery : Type := mkGallery {
  shown : option string;
  thumbnail_images : list string
}.

(** A page reduced to its gallery: every text is ["1.500.000"], there is
    no sale price, and clicking thumbnail [n] shows its image. *)
#[export] Instance gallery_page : Locators gallery := {
  locator_wait_for _ := done_with ();
  locator_text_content _ := done_with (Some "Rp 1.500.000");
  locator_count _ := done_with 0;
  locator_all _ := fun g => (Ret (seq 0 (length (thumbnail_images g))), g);
  locator_get_attribute _ _ := fun g => (Ret (shown g), g);
  locator_click _ n :=
    fun g => (Ret (), {| shown := thumbnail_images g !! n;
                         thumbnail_images := thumbnail_images g |})
}.

(** ** Sample configurations, pages and schedules *)

(** A configuration with [MAX_RETRIES = 3] and [RETRY_DELAY_FACTOR = 1]. *)
Definition cfg_3_1 : config :=
  {| MAX_RETRIES := 3; RETRY_DELAY_FACTOR := 1;
     EXCLUDED_RES := {["image"; "stylesheet"; "font"; "media"]};
     WORKER_LIMIT := 5 |}.

(** What the item extractor returns for a product page. *)
Definition product_data : pyval :=
  PyDict [("name", PyStr "Predator"); ("price", PyInt 1500000)].

(** Scripts of three page loads: a navigation error, an extractor that
    overruns the timeout, then an extractor that returns in time; and three
    loads failing for the three causes. *)
Definition third_time_lucky : list load_script :=
  [NavFails NavigationError;
   Parses (Completes 5 (Ret product_data));
   Parses (Completes 1 (Ret product_data))].

Definition never_lucky : list load_script :=
  [NavFails NavigationError;
   Parses (Completes 1 (Raise ExtractionError));
   Parses Pending].

(** A page whose extractor is still running at the timeout, catches the
    cancellation and returns five time units later. *)
Definition resists_cancellation : list load_script :=
  [Parses (Resists 5 (Ret product_data))].

(** An extractor that needs five time units on every page and ends as soon
    as it is cancelled. *)
Definition slow_parser : extractor (list load_script) :=
  fun w => (Completes 5 (Ret product_data), w).

(** A page whose extractor finds nothing and returns an empty mapping. *)
Definition empty_page : list load_script :=
  [Parses (Completes 1 (Ret (PyDict [])))].

(** The seed address of the listing crawl and three item addresses. *)
Definition START_URL : string := "/pria/sepatu/sepak-bola.html".

Definition three_urls : list string := ["/a.html"; "/b.html"; "/c.html"].

(** A configuration with two workers. *)
Definition cfg_two_workers : config :=
  {| MAX_RETRIES := 3; RETRY_DELAY_FACTOR := 1;
     EXCLUDED_RES := {["image"]}; WORKER_LIMIT := 2 |}.

(** A page load that succeeds at the first attempt. *)
Definition loads_fine : list load_script :=
  [Parses (Completes 1 (Ret product_data))].

(** A schedule of a session over [three_urls] with two workers: the second
    worker finishes first and takes the third job. *)
Definition interleaved : list (label (list load_script)) :=
  [NewPage 0%nat; NewPage 1%nat; Put; Put; Get 0%nat; Get 1%nat; Put;
   Load 1%nat loads_fine; Load 0%nat never_lucky; TaskDone 1%nat;
   Get 1%nat; Load 1%nat loads_fine; TaskDone 0%nat; TaskDone 1%nat; Join].

(** The requests of a page load, of mixed resource types. *)
Definition mixed_trace : list Route :=
  [ {| request_url := "https://www.adidas.co.id/p.html";
       resource_type := "document" |};
    {| request_url := "https://www.adidas.co.id/hero.jpg";
       resource_type := "image" |};
    {| request_url := "https://www.adidas.co.id/app.js";
       resource_type := "script" |};
    {| request_url := "https://www.adidas.co.id/site.css";
       resource_type := "stylesheet" |};
    {| request_url := "https://www.adidas.co.id/api/stock";
       resource_type := "xhr" |} ].

(** A listing of two pages: 20 links and a visible next control, then 10
    links and no next control. *)
Definition links_from (first count : nat) : list (option string) :=
  map (fun i => Some (String.append "/"
                        (String (Ascii.ascii_of_nat (65 + i)) ".html")))
      (seq first count).

Definition listing_page_1 : dom :=
  {| product_cards := links_from 0 20;
     next_links := [ {| visible := true; href := Some "?page=2" |} ] |}.

Definition listing_page_2 : dom :=
  {| product_cards := links_from 20 10; next_links := [] |}.

Definition two_page_listing : site :=
  fun address =>
    if String.eqb address START_URL then Some listing_page_1
    else if String.eqb address "?page=2" then Some listing_page_2
    else None.

(** A page whose next control is visible but carries no [href]. *)
Definition dangling_next_page : dom :=
  {| product_cards := [Some "/x.html"];
     next_links := [ {| visible := true; href := None |} ] |}.

(** A session over two addresses with two workers, the loads running in
    the worlds [wa] and [wb]. *)
Definition round_of_two (wa wb : list load_script)
  : list (label (list load_script)) :=
  [NewPage 0%nat; NewPage 1%nat; Put; Put; Get 0%nat; Get 1%nat;
   Load 0%nat wa; Load 1%nat wb; TaskDone 0%nat; TaskDone 1%nat; Join].

(** A session over one address. *)
Definition round_of_one (wa : list load_script)
  : list (label (list load_script)) :=
  [NewPage 0%nat; Put; Get 0%nat; Load 0%nat wa; TaskDone 0%nat; Join].

Definition two_urls : list string := ["/a.html"; "/b.html"].

(** Both addresses fail in rounds 1 and 2; in round 3 the first loads and
    the second fails again. *)
Definition late_success : list (list (label (list load_script))) :=
  [round_of_two never_lucky never_lucky;
   round_of_two never_lucky never_lucky;
   round_of_two loads_fine never_lucky].

(** Three addresses, the first of which fails in every round. *)
Definition one_always_fails : list (list (label (list load_script))) :=
  [interleaved; round_of_one never_lucky; round_of_one never_lucky].

(** The schedule that feeds one address at a time to the first worker,
    every load running against a page that never answers. *)
Definition sequential (urls : list string)
  : list (label (list load_script)) :=
  match urls with
  | [] => [Join]
  | _ :: _ =>
      NewPage 0%nat
        :: concat (replicate (length urls)
                     [Put; Get 0%nat; Load 0%nat []; TaskDone 0%nat])
        ++ [Join]
  end.

(** ** Further sample inputs *)

(** An operation that fails twice with caught errors, then is cancelled. *)
Definition cancelled_third : coroutine nat unit :=
  fun calls =>
    (Raise (if (calls <? 2)%nat then ExtractionError else CancelledError),
     S calls, []).

(** An operation that fails twice, then returns the number of calls made
    before. *)
Definition third_call_returns : coroutine nat unit :=
  fun calls =>
    (if (calls <? 2)%nat then Raise TimeoutError
     else Ret (PyInt (Z.of_nat calls)),
     S calls, []).

(** A configuration that allows no attempt. *)
Definition cfg_no_attempt : config :=
  {| MAX_RETRIES := 0; RETRY_DELAY_FACTOR := 1;
     EXCLUDED_RES := ∅; WORKER_LIMIT := 2 |}.

(** A schedule in which the only worker dies while loading the only
    address. *)
Definition dies_loading : list (label (list load_script)) :=
  [NewPage 0%nat; Put; Get 0%nat; Die 0%nat].

(** A configuration that allows no worker. *)
Definition cfg_no_worker : config :=
  {| MAX_RETRIES := 3; RETRY_DELAY_FACTOR := 1;
     EXCLUDED_RES := ∅; WORKER_LIMIT := 0 |}.

(** Some task that has stopped still holds a job it has not
    acknowledged. *)
Definition holds_unacknowledged (st : session) : Prop :=
  exists i t j,
    tabs st !! i = Some t
    /\ running t = false
    /\ (at_phase t = Loading j \/ at_phase t = Sleeping j).

(** A listing page whose extractor returns two addresses. *)
Definition lists_two : list load_script :=
  [Parses (Completes 1 (Ret (PyList [PyStr "/a.html"; PyStr "/b.html"])))].

(** The schedules of a whole run: the listing session, then one round in
    which both items load. *)
Definition whole_run : list (list (label (list load_script))) :=
  [round_of_one lists_two; round_of_two loads_fine loads_fine].

(** A listing whose only page links to itself. *)
Definition looping_page : dom :=
  {| product_cards := [Some "/x.html"];
     next_links := [ {| visible := true; href := Some "?page=1" |} ] |}.

Definition looping_listing : site :=
  fun address =>
    if String.eqb address "?page=1" then Some looping_page else None.

(** A listing whose second page is missing. *)
Definition broken_listing : site :=
  fun address =>
    if String.eqb address START_URL then Some listing_page_1 else None.

(** A gallery of three thumbnails showing its first image. *)
Definition three_images : gallery :=
  {| shown := Some "/img/front.jpg";
     thumbnail_images :=
       ["/img/front.jpg"; "/img/side.jpg"; "/img/sole.jpg"] |}.

(** What the product parser returns on [three_images]. *)
Definition parsed_three_images : pyval :=
  PyDict [("name", PyStr "Rp 1.500.000");
          ("color", PyStr "Rp 1.500.000");
          ("price", PyInt 1500000);
          ("description", PyStr "Rp 1.500.000");
          ("img_urls", PyList [PyStr "/img/front.jpg";
                               PyStr "/img/front.jpg";
                               PyStr "/img/side.jpg"])].

(** * Properties *)

(** ** The retry loop *)

Section retry_facts.
Context {W I : Type}.
Variable cfg : config.
Variable max_retries : Z.
Variable func : coroutine W I.

Local Abbreviation loop := (retry_loop cfg max_retries func).
Local Abbreviation factor := (RETRY_DELAY_FACTOR cfg).

(** The loop ends: the fuel given by [_retry] is never used up. *)
Lemma retry_loop_total fuel : forall attempt w log,
  (Z.to_nat (max_retries - attempt) < fuel)%nat ->
  is_Some (loop fuel attempt w log).
Proof.
  induction fuel as [|fuel IH]; intros attempt w log Hfuel; [lia|].
  simpl. destruct (Z.ltb_spec attempt max_retries) as [Hlt|Hge]; [|eauto].
  destruct (func w) as [[[v|error] w'] evs]; [eauto|].
  destruct (isinstance_Exception error); [|eauto].
  apply IH. lia.
Qed.

Lemma _retry_total w : is_Some (_retry cfg max_retries func w).
Proof. apply retry_loop_total. lia. Qed.

Lemma result_of_attempt_shift w k :
  (1 <= k)%nat ->
  result_of_attempt func (func w).1.2 k = result_of_attempt func w (S k).
Proof.
  intros Hk. unfold result_of_attempt.
  destruct k as [|k]; [lia|]. reflexivity.
Qed.

(** [m] caught attempts in a row take [m] iterations and leave the trace
    [failed_log]. *)
Lemma retry_loop_caught m : forall fuel attempt w log,
  (forall k, (1 <= k <= m)%nat -> caught (result_of_attempt func w k) = true) ->
  attempt + Z.of_nat m <= max_retries ->
  loop (m + fuel) attempt w log
  = loop fuel (attempt + Z.of_nat m) (world_after func m w)
      (log ++ failed_log func factor m attempt w).
Proof.
  induction m as [|m IH]; intros fuel attempt w log Hfail Hle.
  - simpl. rewrite Z.add_0_r, app_nil_r. reflexivity.
  - assert (H1 := Hfail 1%nat ltac:(lia)).
    unfold result_of_attempt in H1. simpl in H1.
    change (S m + fuel)%nat with (S (m + fuel)).
    cbn [retry_loop failed_log world_after].
    destruct (Z.ltb_spec attempt max_retries) as [_|]; [|lia].
    destruct (func w) as [[r w'] evs] eqn:Hf. simpl in H1 |- *.
    destruct r as [v|error]; [discriminate|].
    simpl in H1. rewrite H1.
    rewrite IH.
    + replace (attempt + 1 + Z.of_nat m) with (attempt + Z.of_nat (S m))
        by lia.
      f_equal. rewrite <- !app_assoc. reflexivity.
    + intros k Hk. specialize (Hfail (S k) ltac:(lia)).
      rewrite <- result_of_attempt_shift in Hfail by lia.
      rewrite Hf in Hfail. exact Hfail.
    + lia.
Qed.

(** The loop only adds to the trace. *)
Lemma retry_loop_extends fuel : forall attempt w log r w' log',
  loop fuel attempt w log = Some (r, w', log') ->
  exists tail, log' = log ++ tail.
Proof.
  induction fuel as [|fuel IH]; intros attempt w log r w' log' Hrun;
    [discriminate|].
  simpl in Hrun. destruct (attempt <? max_retries).
  - destruct (func w) as [[[v|error] w1] evs].
    + inversion Hrun; subst. eauto.
    + destruct (isinstance_Exception error).
      * apply IH in Hrun as [tail ->].
        rewrite <- !app_assoc. eauto.
      * inversion Hrun; subst. eauto.
  - inversion Hrun; subst. exists []. by rewrite app_nil_r.
Qed.

(** Every event of [func] in the trace was emitted by a call of [func]. *)
Lemma retry_loop_inner (P : I -> Prop) fuel : forall attempt w log r w' log',
  (forall w0, Forall P (func w0).2) ->
  Forall (fun ev => match ev with Inner i => P i | _ => True end) log ->
  loop fuel attempt w log = Some (r, w', log') ->
  Forall (fun ev => match ev with Inner i => P i | _ => True end) log'.
Proof.
  induction fuel as [|fuel IH]; intros attempt w log r w' log' HP Hlog Hrun;
    [discriminate|].
  assert (Hstep :
            Forall (fun ev => match ev with Inner i => P i | _ => True end)
                    (log ++ Attempt (attempt + 1) :: map Inner (func w).2)).
  { apply Forall_app; split; [done|]. constructor; [done|].
    apply Forall_fmap. eapply Forall_impl; [apply HP|]. done. }
  simpl in Hrun. destruct (attempt <? max_retries).
  - destruct (func w) as [[[v|error] w1] evs]; simpl in Hstep.
    + inversion Hrun; subst. done.
    + destruct (isinstance_Exception error).
      * eapply IH; [done| |exact Hrun].
        apply Forall_app; split; [done|]. by repeat constructor.
      * inversion Hrun; subst. done.
  - inversion Hrun; subst. done.
Qed.

(** An attempt that returns ends the loop with what it returned. *)
Lemma retry_loop_returns fuel attempt w log v :
  attempt < max_retries ->
  (func w).1.1 = Ret v ->
  loop (S fuel) attempt w log
  = Some (Ret v, (func w).1.2,
          log ++ Attempt (attempt + 1) :: map Inner (func w).2).
Proof.
  intros Hlt Hret. simpl.
  destruct (Z.ltb_spec attempt max_retries) as [_|]; [|lia].
  destruct (func w) as [[r w'] evs]. simpl in *. by subst.
Qed.

(** Once [max_retries] is reached the loop gives up with [None]. *)
Lemma retry_loop_gives_up fuel attempt w log :
  max_retries <= attempt ->
  loop (S fuel) attempt w log = Some (Ret PyNone, w, log).
Proof.
  intros Hge. simpl.
  destruct (Z.ltb_spec attempt max_retries) as [|_]; [lia|]. reflexivity.
Qed.
End retry_facts.

(** ** Traces of caught attempts *)

Section trace_facts.
Context {W I : Type}.
Variable func : coroutine W I.
Variable factor : Z.

Local Abbreviation flog := (failed_log func factor).

Lemma backoffs_app (l1 l2 : list (retry_event I)) :
  backoffs (l1 ++ l2) = backoffs l1 ++ backoffs l2.
Proof. apply omap_app. Qed.

Lemma attempts_app (l1 l2 : list (retry_event I)) :
  attempts (l1 ++ l2) = attempts l1 ++ attempts l2.
Proof. apply omap_app. Qed.

Lemma backoffs_Inner (evs : list I) : backoffs (map Inner evs) = [].
Proof. induction evs as [|ev evs IH]; [done|]. exact IH. Qed.

Lemma attempts_Inner (evs : list I) : attempts (map Inner evs) = [].
Proof. induction evs as [|ev evs IH]; [done|]. exact IH. Qed.

Lemma total_backoff_app (l1 l2 : list (retry_event I)) :
  total_backoff (l1 ++ l2) = total_backoff l1 + total_backoff l2.
Proof.
  unfold total_backoff. rewrite backoffs_app.
  induction (backoffs l1) as [|d ds IH]; simpl; lia.
Qed.

Lemma attempts_failed_log m : forall a w,
  attempts (flog m a w) = map (fun j => a + Z.of_nat j) (seq 1 m).
Proof.
  induction m as [|m IH]; intros a w; [done|].
  cbn [failed_log].
  change (attempts (Attempt ?k :: ?l)) with (k :: attempts l).
  rewrite attempts_app, attempts_Inner.
  change (attempts (Backoff ?d :: ?l)) with (attempts l).
  rewrite IH. cbn [seq map app]. f_equal.
  rewrite <- (seq_shift m 1), map_map. apply map_ext. intros j. lia.
Qed.

Lemma backoffs_failed_log m : forall a w,
  backoffs (flog m a w)
  = map (fun j => (a + Z.of_nat j) * factor) (seq 1 m).
Proof.
  induction m as [|m IH]; intros a w; [done|].
  cbn [failed_log].
  change (backoffs (Attempt ?k :: ?l)) with (backoffs l).
  rewrite backoffs_app, backoffs_Inner.
  change (backoffs (Backoff ?d :: ?l)) with (d :: backoffs l).
  rewrite IH. cbn [seq map app]. f_equal.
  rewrite <- (seq_shift m 1), map_map. apply map_ext. intros j. f_equal. lia.
Qed.

(** The waits after [m] caught attempts add up to
    [factor * (1 + 2 + ... + m)] when the first attempt is number 1. *)
Lemma total_backoff_failed_log m : forall a w,
  2 * total_backoff (flog m a w)
  = factor * Z.of_nat m * (2 * a + Z.of_nat m + 1).
Proof.
  induction m as [|m IH]; intros a w.
  - unfold total_backoff. simpl. lia.
  - cbn [failed_log].
    change (total_backoff (Attempt ?k :: ?l)) with (total_backoff l).
    rewrite total_backoff_app.
    change (total_backoff (Backoff ?d :: ?l)) with (d + total_backoff l).
    unfold total_backoff at 1. rewrite backoffs_Inner. simpl foldr.
    specialize (IH (a + 1) (func w).1.2). nia.
Qed.

Lemma next_backoff_Inner (evs : list I) rest :
  next_backoff (map Inner evs ++ rest) = next_backoff rest.
Proof. induction evs as [|ev evs IH]; [done|]. exact IH. Qed.

Lemma delay_after_Inner k (evs : list I) rest :
  delay_after k (map Inner evs ++ rest) = delay_after k rest.
Proof. induction evs as [|ev evs IH]; [done|]. exact IH. Qed.

Lemma delay_before_from_Inner last k (evs : list I) rest :
  delay_before_from last k (map Inner evs ++ rest)
  = delay_before_from last k rest.
Proof. induction evs as [|ev evs IH]; [done|]. exact IH. Qed.

(** The wait that follows caught attempt [k]. *)
Lemma delay_after_failed_log m : forall a w tail k,
  a < k <= a + Z.of_nat m ->
  delay_after k (flog m a w ++ tail) = Some (k * factor).
Proof.
  induction m as [|m IH]; intros a w tail k Hk; [lia|].
  cbn [failed_log app delay_after].
  destruct (Z.eqb_spec (a + 1) k) as [->|Hne].
  - rewrite <- app_assoc, next_backoff_Inner. reflexivity.
  - rewrite <- app_assoc, delay_after_Inner. cbn [app delay_after].
    apply IH. lia.
Qed.

(** The wait that precedes attempt [k], for an attempt that follows a
    caught one. *)
Lemma delay_before_failed_log m : forall a w tail last k,
  a + 1 < k <= a + Z.of_nat m + 1 ->
  (k = a + Z.of_nat m + 1 -> exists tail', tail = Attempt k :: tail') ->
  delay_before_from last k (flog m a w ++ tail) = Some ((k - 1) * factor).
Proof.
  induction m as [|m IH]; intros a w tail last k Hk Htail; [lia|].
  cbn [failed_log app delay_before_from].
  destruct (Z.eqb_spec (a + 1) k) as [|_]; [lia|].
  rewrite <- app_assoc, delay_before_from_Inner.
  cbn [app delay_before_from].
  destruct (Z.eq_dec k (a + 2)) as [->|Hne].
  - replace (a + 2 - 1) with (a + 1) by lia.
    destruct m as [|m].
    + destruct Htail as [tail' ->]; [lia|].
      cbn [failed_log app delay_before_from].
      by rewrite Z.eqb_refl.
    + cbn [failed_log app delay_before_from].
      replace (a + 1 + 1) with (a + 2) by lia.
      by rewrite Z.eqb_refl.
  - apply IH; [lia|]. intros Heq. apply Htail. lia.
Qed.
End trace_facts.

(** ** RetryPolicy *)

Section retry_policy.
Context {W I : Type}.
Variable cfg : config.
Variable max_retries : Z.
Variable func : coroutine W I.

Local Abbreviation factor := (RETRY_DELAY_FACTOR cfg).

(** An iteration that is entered starts with an attempt. *)
Lemma retry_loop_head fuel attempt w log r w' log' :
  attempt < max_retries ->
  retry_loop cfg max_retries func fuel attempt w log = Some (r, w', log') ->
  exists tail, log' = log ++ Attempt (attempt + 1) :: tail.
Proof.
  intros Hlt Hrun. destruct fuel as [|fuel]; [discriminate|].
  simpl in Hrun. destruct (Z.ltb_spec attempt max_retries); [|lia].
  destruct (func w) as [[[v|error] w1] evs].
  - inversion Hrun; subst. eauto.
  - destruct (isinstance_Exception error).
    + apply retry_loop_extends in Hrun as [tail ->].
      rewrite <- !app_assoc. simpl. eauto.
    + inversion Hrun; subst. eauto.
Qed.

(** C3.  A wrapped operation that fails on every attempt is tried
    [max_retries] times, numbered 1 to [max_retries], and no more; the
    wrapper then returns [None] and raises nothing.  The waits add up to
    [RETRY_DELAY_FACTOR * (1 + ... + max_retries)], which is 1+2+3 = 6
    for [MAX_RETRIES = 3] and [RETRY_DELAY_FACTOR = 1], and the worker
    records the result as an unsuccessful outcome. *)
Theorem retry_exhausted_returns_None w :
  0 <= max_retries ->
  (forall k, (1 <= k)%nat -> Z.of_nat k <= max_retries ->
             caught (result_of_attempt func w k) = true) ->
  exists result w' log,
    _retry cfg max_retries func w = Some (Ret result, w', log)
    /\ result = PyNone
    /\ attempts log = range 1 (max_retries + 1)
    /\ len (attempts log) <= max_retries
    /\ 2 * total_backoff log = factor * max_retries * (max_retries + 1)
    /\ (max_retries = 3 -> factor = 1 -> total_backoff log = 1 + 2 + 3)
    /\ forall u, record_outcome u result
                 = {| url := u; is_successful := false; data := PyNone |}.
Proof.
  intros Hmax Hfail.
  pose (n := Z.to_nat max_retries).
  assert (Hn : Z.of_nat n = max_retries) by (subst n; lia).
  assert (Hrun : _retry cfg max_retries func w
                 = Some (Ret PyNone, world_after func n w,
                         failed_log func factor n 0 w)).
  { unfold _retry. fold n. replace (S n) with (n + 1)%nat by lia.
    clearbody n.
    rewrite retry_loop_caught; [|intros; apply Hfail; lia|lia].
    rewrite retry_loop_gives_up by lia. reflexivity. }
  assert (Hatt : attempts (failed_log func factor n 0 w)
                 = range 1 (max_retries + 1)).
  { rewrite attempts_failed_log. unfold range.
    replace (Z.to_nat (max_retries + 1 - 1)) with n by (subst n; lia).
    rewrite <- (seq_shift n 0), map_map. apply map_ext. intros j. lia. }
  assert (Hsum : 2 * total_backoff (failed_log func factor n 0 w)
                 = factor * max_retries * (max_retries + 1)).
  { rewrite total_backoff_failed_log, Hn. lia. }
  exists PyNone, (world_after func n w), (failed_log func factor n 0 w).
  split; [exact Hrun|]. split; [reflexivity|]. split; [exact Hatt|].
  split.
  { rewrite Hatt. unfold len, range.
    rewrite length_map, length_seq. lia. }
  split; [exact Hsum|]. split; [|reflexivity].
  revert Hsum. generalize (total_backoff (failed_log func factor n 0 w)).
  intros total Hsum H3 H1. rewrite H3, H1 in Hsum. lia.
Qed.

(** C4, amended.  While the attempts keep failing, the wait that follows
    failed attempt [j] is [j * RETRY_DELAY_FACTOR]: attempt 1 is
    executed without any wait, attempt [j + 1] is executed after
    a wait of [j * RETRY_DELAY_FACTOR], and each wait exceeds the one
    before it by [RETRY_DELAY_FACTOR]. *)
Theorem backoff_follows_failed_attempt w (k : nat) :
  (1 <= k)%nat ->
  Z.of_nat k <= max_retries ->
  (forall j, (1 <= j <= k)%nat ->
             caught (result_of_attempt func w j) = true) ->
  exists r w' log,
    _retry cfg max_retries func w = Some (r, w', log)
    /\ (forall j, 1 <= j <= Z.of_nat k ->
                  delay_after j log = Some (j * factor))
    /\ delay_before 1 log = None
    /\ (forall j, 1 <= j < Z.of_nat k ->
                  delay_before (j + 1) log = Some (j * factor))
    /\ (Z.of_nat k < max_retries ->
        delay_before (Z.of_nat k + 1) log = Some (Z.of_nat k * factor))
    /\ (forall j, 1 <= j < Z.of_nat k ->
          exists d d', delay_after j log = Some d
                       /\ delay_after (j + 1) log = Some d'
                       /\ d' - d = factor).
Proof.
  intros Hk Hle Hfail.
  destruct (_retry_total cfg max_retries func w) as [[[r w'] log] Hrun].
  assert (Hlog : exists tail,
             log = failed_log func factor k 0 w ++ tail
             /\ (Z.of_nat k < max_retries ->
                 exists tail', tail = Attempt (Z.of_nat k + 1) :: tail')).
  { unfold _retry in Hrun.
    replace (S (Z.to_nat max_retries))
      with (k + S (Z.to_nat max_retries - k))%nat in Hrun by lia.
    rewrite retry_loop_caught in Hrun by (auto; lia).
    rewrite app_nil_l, Z.add_0_l in Hrun.
    destruct (retry_loop_extends _ _ _ _ _ _ _ _ _ _ Hrun) as [tail ->].
    exists tail. split; [reflexivity|]. intros Hlt.
    apply retry_loop_head in Hrun as [tail' Heq]; [|lia].
    apply app_inv_head in Heq. eauto. }
  destruct Hlog as (tail & -> & Htail).
  assert (Hafter : forall j, 1 <= j <= Z.of_nat k ->
            delay_after j (failed_log func factor k 0 w ++ tail)
            = Some (j * factor)).
  { intros j Hj. apply delay_after_failed_log. lia. }
  exists r, w', (failed_log func factor k 0 w ++ tail).
  split; [exact Hrun|]. split; [exact Hafter|]. split.
  { destruct k as [|k]; [lia|]. reflexivity. }
  split.
  { intros j Hj. unfold delay_before.
    rewrite delay_before_failed_log; [f_equal; lia|lia|lia]. }
  split.
  { intros Hlt. unfold delay_before.
    rewrite delay_before_failed_log; [f_equal; lia|lia|].
    intros _. destruct (Htail Hlt) as [tail' ->]. eauto. }
  intros j Hj. exists (j * factor), ((j + 1) * factor).
  split; [apply Hafter; lia|]. split; [apply Hafter; lia|]. lia.
Qed.
End retry_policy.

Lemma retry_exhausted_returns_None_witness :
  0 <= 3
  /\ (forall k, (1 <= k)%nat -> Z.of_nat k <= 3 ->
        caught (result_of_attempt always_throws () k) = true)
  /\ exists result w' log,
      _retry cfg_3_1 3 always_throws () = Some (Ret result, w', log)
      /\ result = PyNone
      /\ attempts log = range 1 (3 + 1)
      /\ len (attempts log) <= 3
      /\ 2 * total_backoff log = 1 * 3 * (3 + 1)
      /\ (3 = 3 -> 1 = 1 -> total_backoff log = 1 + 2 + 3)
      /\ forall u, record_outcome u result
                   = {| url := u; is_successful := false; data := PyNone |}.
Proof.
  split; [lia|]. split; [intros k _ _; reflexivity|].
  apply (retry_exhausted_returns_None cfg_3_1 3 always_throws ());
    [lia | intros k _ _; reflexivity].
Defined.

(** C4 as stated fails: with [MAX_RETRIES = 3], [RETRY_DELAY_FACTOR = 1]
    and an operation that always throws, nothing is waited before
    attempt 1, and the waits before attempts 2 and 3 are 1 and 2. *)
Lemma delay_before_attempt_counterexample :
  exists log,
    _retry cfg_3_1 3 always_throws () = Some (Ret PyNone, (), log)
    /\ log = [Attempt 1; Backoff 1; Attempt 2; Backoff 2;
              Attempt 3; Backoff 3]
    /\ delay_before 1 log = None
    /\ delay_before 2 log = Some 1
    /\ delay_before 3 log = Some 2
    /\ ~ (forall k, 1 <= k <= 3 ->
            delay_before k log = Some (k * RETRY_DELAY_FACTOR cfg_3_1)).
Proof.
  eexists. split; [reflexivity|]. split; [reflexivity|].
  split; [reflexivity|]. split; [reflexivity|]. split; [reflexivity|].
  intros H. specialize (H 1 ltac:(lia)). discriminate H.
Qed.

Lemma backoff_follows_failed_attempt_witness :
  (1 <= 3)%nat
  /\ Z.of_nat 3 <= 3
  /\ (forall j, (1 <= j <= 3)%nat ->
        caught (result_of_attempt always_throws () j) = true)
  /\ exists r w' log,
      _retry cfg_3_1 3 always_throws () = Some (r, w', log)
      /\ (forall j, 1 <= j <= Z.of_nat 3 -> delay_after j log = Some (j * 1))
      /\ delay_before 1 log = None
      /\ (forall j, 1 <= j < Z.of_nat 3 ->
            delay_before (j + 1) log = Some (j * 1))
      /\ (Z.of_nat 3 < 3 ->
          delay_before (Z.of_nat 3 + 1) log = Some (Z.of_nat 3 * 1))
      /\ (forall j, 1 <= j < Z.of_nat 3 ->
            exists d d', delay_after j log = Some d
                         /\ delay_after (j + 1) log = Some d'
                         /\ d' - d = 1).
Proof.
  split; [lia|]. split; [lia|]. split; [intros j _; reflexivity|].
  apply (backoff_follows_failed_attempt cfg_3_1 3 always_throws () 3);
    [lia | lia | intros j _; reflexivity].
Defined.

(** ** PageLoader *)

Section page_loader.
Context {W : Type} `{!Playwright W}.
Variable cfg : config.
Variable u : string.
Variable parser : extractor W.

Local Abbreviation body := (load_page_body u parser).

(** The time spent in [wait_for] exceeds the timeout by no more than
    the time the awaitable takes to end once cancelled. *)
Lemma wait_for_bounded aw : (wait_for aw 3).2 <= 3 + cancel_latency aw.
Proof.
  destruct aw as [elapsed r| |extra r]; simpl; [|lia|].
  - destruct (Z.ltb_spec elapsed 3); simpl; lia.
  - destruct r as [v|[]]; simpl; lia.
Qed.

(** Each run of the body spends in the extractor at most 3 time units
    and the time the extractor takes to end once cancelled. *)
Lemma load_page_body_bounded w :
  Forall (fun ev => match ev with
                    | Extract t =>
                        exists w0, t <= 3 + cancel_latency (parser w0).1
                    | Goto _ => True
                    end)
         (body w).2.
Proof.
  unfold load_page_body.
  destruct (page_goto u w) as [[x|error] w1]; simpl.
  - pose proof (wait_for_bounded (parser w1).1) as Hb.
    destruct (parser w1) as [aw w2] eqn:Hparse. simpl in Hb.
    destruct (wait_for aw 3) as [result spent]. simpl in *.
    repeat constructor. exists w1. by rewrite Hparse.
  - by repeat constructor.
Qed.

Lemma load_page_body_returns w x w1 w2 elapsed v :
  page_goto u w = (Ret x, w1) ->
  parser w1 = (Completes elapsed (Ret v), w2) ->
  elapsed < 3 ->
  body w = (Ret v, w2, [Goto u; Extract elapsed]).
Proof.
  intros Hgoto Hparse Hlt. unfold load_page_body.
  rewrite Hgoto, Hparse. simpl.
  destruct (Z.ltb_spec elapsed 3); [reflexivity|lia].
Qed.

(** Each of the three causes ends the body with an error that the
    retry wrapper catches. *)
(** An extractor that is still running at the timeout and returns a value
    after it is cancelled makes the body return that value. *)
Lemma load_page_body_returns_late w x w1 w2 extra v :
  page_goto u w = (Ret x, w1) ->
  parser w1 = (Resists extra (Ret v), w2) ->
  body w = (Ret v, w2, [Goto u; Extract (3 + extra)]).
Proof.
  intros Hgoto Hparse. unfold load_page_body.
  by rewrite Hgoto, Hparse.
Qed.

Lemma fails_by_caught w cause :
  fails_by u parser w cause -> caught (body w).1.1 = true.
Proof.
  unfold load_page_body.
  intros [error w1 Hgoto Hexc
         |error elapsed x w1 w2 Hgoto Hparse Hlt Hexc
         |elapsed r x w1 w2 Hgoto Hparse Hge
         |x w1 w2 Hgoto Hparse
         |extra x w1 w2 Hgoto Hparse
         |error extra x w1 w2 Hgoto Hparse Hexc]; rewrite Hgoto; simpl.
  - exact Hexc.
  - rewrite Hparse. simpl. destruct (Z.ltb_spec elapsed 3); [|lia].
    exact Hexc.
  - rewrite Hparse. simpl. destruct (Z.ltb_spec elapsed 3); [lia|].
    reflexivity.
  - rewrite Hparse. reflexivity.
  - rewrite Hparse. reflexivity.
  - rewrite Hparse. by destruct error.
Qed.

(** A load whose attempts all fail ends with [None]. *)
Lemma load_page_exhausted w :
  (forall j, (1 <= j)%nat -> Z.of_nat j <= MAX_RETRIES cfg ->
     exists cause, fails_by u parser (world_after body (pred j) w) cause) ->
  exists w' log, _load_page cfg u parser w = Some (Ret PyNone, w', log).
Proof.
  intros Hfail. unfold _load_page, _retry.
  destruct (Z.le_gt_cases 0 (MAX_RETRIES cfg)) as [Hmax|Hmax];
    [|rewrite retry_loop_gives_up by lia; eauto].
  replace (S (Z.to_nat (MAX_RETRIES cfg)))
    with (Z.to_nat (MAX_RETRIES cfg) + 1)%nat by lia.
  rewrite retry_loop_caught; [| |lia].
  - rewrite retry_loop_gives_up by lia. eauto.
  - intros j Hj. destruct (Hfail j ltac:(lia) ltac:(lia)) as [cause Hc].
    eapply fails_by_caught, Hc.
Qed.

(** C5, amended.  Every invocation of the extractor is cancelled once
    3 time units have passed: it spends at most 3 time units and the time
    the extractor takes to end once cancelled, hence at most 3 when the
    extractor ends as soon as it is cancelled.  When the first attempt
    that does not fail, within the retry budget, is one whose extractor
    returns under the timeout, the call returns what the extractor
    returned.  When every attempt of the budget fails, the call returns
    [None], whichever of the three causes (navigation error, extractor
    exception, timeout) each failure had.  An extractor that is still
    running at the timeout and returns a value once cancelled is no
    failure: the call returns that value. *)
Theorem load_page_contract w :
  (forall aw, (wait_for aw 3).2 <= 3 + cancel_latency aw)
  /\ (forall r w' log,
        _load_page cfg u parser w = Some (r, w', log) ->
        Forall (fun t => exists w0, t <= 3 + cancel_latency (parser w0).1)
               (extract_times log)
        /\ ((forall w0, ends_when_cancelled (parser w0).1 = true) ->
            Forall (fun t => t <= 3) (extract_times log)))
  /\ (forall (k : nat) x w1 w2 elapsed v,
        (1 <= k)%nat ->
        Z.of_nat k <= MAX_RETRIES cfg ->
        (forall j, (1 <= j < k)%nat ->
           exists cause,
             fails_by u parser (world_after body (pred j) w) cause) ->
        page_goto u (world_after body (pred k) w) = (Ret x, w1) ->
        parser w1 = (Completes elapsed (Ret v), w2) ->
        elapsed < 3 ->
        exists log, _load_page cfg u parser w = Some (Ret v, w2, log))
  /\ ((forall j, (1 <= j)%nat -> Z.of_nat j <= MAX_RETRIES cfg ->
         exists cause,
           fails_by u parser (world_after body (pred j) w) cause) ->
      exists w' log, _load_page cfg u parser w = Some (Ret PyNone, w', log))
  /\ (forall (k : nat) x w1 w2 extra v,
        (1 <= k)%nat ->
        Z.of_nat k <= MAX_RETRIES cfg ->
        (forall j, (1 <= j < k)%nat ->
           exists cause,
             fails_by u parser (world_after body (pred j) w) cause) ->
        page_goto u (world_after body (pred k) w) = (Ret x, w1) ->
        parser w1 = (Resists extra (Ret v), w2) ->
        exists log,
          _load_page cfg u parser w = Some (Ret v, w2, log)
          /\ last (extract_times log) = Some (3 + extra)).
Proof.
  split; [exact wait_for_bounded|]. split; [|split; [|split]].
  - intros r w' log Hrun. unfold _load_page, _retry in Hrun.
    eapply (retry_loop_inner _ _ _
              (fun ev => match ev with
                         | Extract t =>
                             exists w0, t <= 3 + cancel_latency (parser w0).1
                         | _ => True
                         end))
      in Hrun; [|apply load_page_body_bounded|constructor].
    assert (Hgeneral :
              Forall (fun t => exists w0, t <= 3 + cancel_latency (parser w0).1)
                     (extract_times log)).
    { unfold extract_times. clear -Hrun.
      induction Hrun as [|ev log Hev _ IH]; [constructor|].
      destruct ev as [| |[|t]]; simpl; auto. }
    split; [exact Hgeneral|]. intros Hprompt.
    eapply Forall_impl; [exact Hgeneral|].
    intros t [w0 Ht]. specialize (Hprompt w0).
    destruct (parser w0).1; simpl in *; [lia|lia|discriminate].
  - intros k x w1 w2 elapsed v Hk Hle Hfail Hgoto Hparse Hlt.
    unfold _load_page, _retry.
    replace (S (Z.to_nat (MAX_RETRIES cfg)))
      with (pred k + S (S (Z.to_nat (MAX_RETRIES cfg)) - k))%nat by lia.
    rewrite retry_loop_caught; [| |lia].
    + pose proof (load_page_body_returns _ _ _ _ _ _ Hgoto Hparse Hlt) as Hb.
      erewrite retry_loop_returns; [|lia|by rewrite Hb].
      rewrite Hb. simpl. eauto.
    + intros j Hj. destruct (Hfail j ltac:(lia)) as [cause Hc].
      eapply fails_by_caught, Hc.
  - apply load_page_exhausted.
  - intros k x w1 w2 extra v Hk Hle Hfail Hgoto Hparse.
    unfold _load_page, _retry.
    replace (S (Z.to_nat (MAX_RETRIES cfg)))
      with (pred k + S (S (Z.to_nat (MAX_RETRIES cfg)) - k))%nat by lia.
    rewrite retry_loop_caught; [| |lia].
    + pose proof (load_page_body_returns_late _ _ _ _ _ _ Hgoto Hparse) as Hb.
      erewrite retry_loop_returns; [|lia|by rewrite Hb].
      rewrite Hb. simpl. eexists. split; [reflexivity|].
      unfold extract_times. rewrite omap_app. simpl. apply last_snoc.
    + intros j Hj. destruct (Hfail j ltac:(lia)) as [cause Hc].
      eapply fails_by_caught, Hc.
Qed.
End page_loader.

Lemma load_page_contract_witness :
  (exists log,
      _load_page cfg_3_1 "/p.html" scripted_parser third_time_lucky
      = Some (Ret product_data, [], log)
      /\ Forall (fun t => exists w0,
                   t <= 3 + cancel_latency (scripted_parser w0).1)
                (extract_times log))
  /\ (exists w' log,
         _load_page cfg_3_1 "/p.html" scripted_parser never_lucky
         = Some (Ret PyNone, w', log))
  /\ (exists r w' log,
         _load_page cfg_3_1 "/p.html" slow_parser [] = Some (r, w', log)
         /\ Forall (fun t => t <= 3) (extract_times log))
  /\ (exists log,
         _load_page cfg_3_1 "/p.html" scripted_parser resists_cancellation
         = Some (Ret product_data, [], log)
         /\ last (extract_times log) = Some (3 + 5)).
Proof.
  split; [|split; [|split]].
  - destruct (load_page_contract cfg_3_1 "/p.html" scripted_parser
                third_time_lucky) as (_ & Hbound & Hret & _).
    destruct (Hret 3%nat () [Parses (Completes 1 (Ret product_data))] []
                1 product_data) as [log Hlog].
    + lia.
    + simpl. lia.
    + intros j Hj. destruct j as [|[|[|j]]]; [lia| | |lia].
      * exists NavigationError. eapply by_navigation; reflexivity.
      * exists TimeoutError.
        eapply by_timeout; [reflexivity|reflexivity|]. lia.
    + reflexivity.
    + reflexivity.
    + lia.
    + exists log. split; [exact Hlog|]. eapply Hbound, Hlog.
  - destruct (load_page_contract cfg_3_1 "/p.html" scripted_parser
                never_lucky) as (_ & _ & _ & Hnone & _).
    apply Hnone. intros j Hj1 Hj2.
    destruct j as [|[|[|[|j]]]]; [lia| | | |simpl in Hj2; lia].
    + exists NavigationError. eapply by_navigation; reflexivity.
    + exists ExtractionError.
      eapply by_extractor; [reflexivity|reflexivity| |reflexivity]. lia.
    + exists TimeoutError. eapply by_never_ending; reflexivity.
  - destruct (load_page_contract cfg_3_1 "/p.html" slow_parser [])
      as (_ & Hbound & _).
    eexists. eexists. eexists. split; [vm_compute; reflexivity|].
    eapply Hbound; [vm_compute; reflexivity|]. intros w0. reflexivity.
  - destruct (load_page_contract cfg_3_1 "/p.html" scripted_parser
                resists_cancellation) as (_ & _ & _ & _ & Hlate).
    apply (Hlate 1%nat () resists_cancellation [] 5 product_data).
    + lia.
    + simpl. lia.
    + intros j Hj. lia.
    + reflexivity.
    + reflexivity.
Defined.

(** C5 as stated fails: an extractor that is still running at the
    timeout, catches the cancellation and returns five time units later
    keeps the invocation for 8 time units, and [_load_page] returns its
    value although it did not complete within the timeout. *)
Lemma late_extractor_counterexample :
  let call :=
    _load_page cfg_3_1 "/p.html" scripted_parser resists_cancellation in
  scripted_parser resists_cancellation
  = (Resists 5 (Ret product_data), [])
  /\ wait_for (Resists 5 (Ret product_data)) 3 = (Ret product_data, 8)
  /\ call = Some (Ret product_data, [],
                  [Attempt 1; Inner (Goto "/p.html"); Inner (Extract 8)])
  /\ ~ (forall r w' log,
          call = Some (r, w', log) ->
          Forall (fun t => t <= 3) (extract_times log))
  /\ ~ (forall r w' log, call = Some (r, w', log) -> r = Ret PyNone).
Proof.
  assert (Hcall :
            _load_page cfg_3_1 "/p.html" scripted_parser resists_cancellation
            = Some (Ret product_data, [],
                    [Attempt 1; Inner (Goto "/p.html"); Inner (Extract 8)]))
    by (vm_compute; reflexivity).
  cbv zeta. split; [reflexivity|]. split; [reflexivity|].
  split; [exact Hcall|]. split.
  - intros Hbound. specialize (Hbound _ _ _ Hcall).
    apply Forall_cons in Hbound as [Hle _]. lia.
  - intros Hnone. specialize (Hnone _ _ _ Hcall). discriminate Hnone.
Qed.


(** ** Worker *)

Section worker_facts.
Context {W : Type} `{!Playwright W}.
Variable cfg : config.
Variable parser : extractor W.

(** The success flag is the truth value of what [_load_page] returned,
    and the data is that value. *)
Lemma record_outcome_spec u result :
  url (record_outcome u result) = u
  /\ is_successful (record_outcome u result) = truthy result
  /\ data (record_outcome u result) = result.
Proof. unfold record_outcome. destruct (truthy result); done. Qed.

(** C10.  When the extractor returns a falsy value in time and without
    raising, [_load_page] returns that value at the first attempt, with
    no retry, and the worker appends an outcome marked unsuccessful whose
    data is that value: the flag is the truth value of the result. *)
Theorem empty_extraction_recorded_as_failure u w x w1 w2 elapsed v :
  1 <= MAX_RETRIES cfg ->
  page_goto u w = (Ret x, w1) ->
  parser w1 = (Completes elapsed (Ret v), w2) ->
  elapsed < 3 ->
  truthy v = false ->
  _load_page cfg u parser w
  = Some (Ret v, w2, [Attempt 1; Inner (Goto u); Inner (Extract elapsed)])
  /\ record_outcome u v = {| url := u; is_successful := false; data := v |}
  /\ (forall r, is_successful (record_outcome u r) = truthy r)
  /\ forall st i t j,
       tabs st !! i = Some t ->
       running t = true ->
       at_phase t = Loading j ->
       job_url j = u ->
       exists st',
         step cfg parser (Load i w) st = Some st'
         /\ session_result st'
            = session_result st
              ++ [{| url := u; is_successful := false; data := v |}].
Proof.
  intros Hmax Hgoto Hparse Hlt Hfalsy.
  assert (Hload : _load_page cfg u parser w
            = Some (Ret v, w2,
                    [Attempt 1; Inner (Goto u); Inner (Extract elapsed)])).
  { unfold _load_page, _retry.
    pose proof (load_page_body_returns _ _ _ _ _ _ _ _ Hgoto Hparse Hlt)
      as Hb.
    erewrite retry_loop_returns; [|lia|by rewrite Hb].
    rewrite Hb. reflexivity. }
  assert (Hrec : record_outcome u v
                 = {| url := u; is_successful := false; data := v |}).
  { unfold record_outcome. by rewrite Hfalsy. }
  split; [exact Hload|]. split; [exact Hrec|].
  split; [intros r; apply record_outcome_spec|].
  intros st i t j Hi Hrun Hphase Hu.
  unfold step. rewrite Hi. simpl. unfold worker_step.
  rewrite Hrun, Hphase, Hu, Hload. simpl. rewrite Hrec. eauto.
Qed.
End worker_facts.

Lemma empty_extraction_recorded_as_failure_witness :
  _load_page cfg_3_1 "/p.html" scripted_parser empty_page
  = Some (Ret (PyDict []), [],
          [Attempt 1; Inner (Goto "/p.html"); Inner (Extract 1)])
  /\ record_outcome "/p.html" (PyDict [])
     = {| url := "/p.html"; is_successful := false; data := PyDict [] |}.
Proof.
  destruct (empty_extraction_recorded_as_failure cfg_3_1 scripted_parser
              "/p.html" empty_page () empty_page [] 1 (PyDict []))
    as (Hload & Hrec & _).
  - simpl. lia.
  - reflexivity.
  - reflexivity.
  - lia.
  - reflexivity.
  - split; [exact Hload|exact Hrec].
Defined.

(** ** SessionManager *)

#[export] Instance len_Permutation {A} :
  Proper ((≡ₚ) ==> (=)) (@len A).
Proof. intros l1 l2 Hp. unfold len. by rewrite Hp. Qed.

Lemma len_app {A} (l1 l2 : list A) : len (l1 ++ l2) = len l1 + len l2.
Proof. unfold len. rewrite length_app. lia. Qed.

Lemma len_nonneg {A} (l : list A) : 0 <= len l.
Proof. unfold len. lia. Qed.

Lemma len_zero_nil {A} (l : list A) : len l = 0 -> l = [].
Proof. destruct l; [done|]. unfold len. simpl. lia. Qed.

Lemma insert_Permutation {A} (l : list A) i x y :
  l !! i = Some x -> <[i := y]> l ≡ₚ y :: delete i l.
Proof.
  intros Hi. rewrite insert_take_drop by (eapply lookup_lt_Some, Hi).
  rewrite delete_take_drop. by rewrite Permutation_middle.
Qed.

Ltac solve_len :=
  unfold len; rewrite ?length_app; simpl; lia.

(** The invariant after a step that stops a worker where it stands. *)
Ltac pool_unchanged HL' HS' Hphase :=
  split; simpl; [| |done];
  [ unfold loading; rewrite HL'; unfold loading_of; simpl; by rewrite Hphase
  | unfold loading, sleeping; rewrite HL', HS';
    unfold loading_of, sleeping_of; simpl; by rewrite Hphase ].

Section pool_facts.
Variable f : task -> list job.

Lemma bind_lookup (ts : list task) i t :
  ts !! i = Some t -> ts ≫= f ≡ₚ f t ++ (delete i ts ≫= f).
Proof.
  intros Hi. rewrite (delete_Permutation ts i t Hi) at 1.
  by rewrite bind_cons.
Qed.

Lemma bind_insert (ts : list task) i t t' :
  ts !! i = Some t -> <[i := t']> ts ≫= f ≡ₚ f t' ++ (delete i ts ≫= f).
Proof.
  intros Hi. rewrite (insert_Permutation ts i t t' Hi).
  by rewrite bind_cons.
Qed.

Lemma bind_insert_same (ts : list task) i t t' :
  ts !! i = Some t -> f t' = f t -> <[i := t']> ts ≫= f ≡ₚ ts ≫= f.
Proof.
  intros Hi Heq.
  rewrite (bind_insert ts i t t' Hi), (bind_lookup ts i t Hi).
  by rewrite Heq.
Qed.

Lemma bind_stop (ts : list task) :
  (forall t, f (stop t) = f t) -> map stop ts ≫= f = ts ≫= f.
Proof.
  intros Hstop. induction ts as [|t ts IH]; [done|].
  cbn [map]. rewrite !bind_cons, Hstop. by rewrite <- IH.
Qed.
End pool_facts.

Section session_facts.
Context {W : Type} `{!Playwright W}.
Variable cfg : config.
Variable parser : extractor W.

Lemma tagged_urls (tag : nat -> Z) (count : Z) urls :
  map job_url (imap (fun index u => (tag index, count, u)) urls) = urls.
Proof.
  revert tag. induction urls as [|u urls IH]; intros tag; [done|].
  rewrite imap_cons. simpl. f_equal. apply (IH (tag ∘ S)).
Qed.

Lemma jobs_urls urls : map job_url (jobs urls) = urls.
Proof. apply (tagged_urls (fun index => Z.of_nat index + 1)). Qed.

Lemma loading_spawned ids :
  loading (map (fun id => {| tab_id := id; at_phase := Starting;
                             running := true |}) ids) = [].
Proof. induction ids as [|id ids IH]; [done|]. exact IH. Qed.

Lemma sleeping_spawned ids :
  sleeping (map (fun id => {| tab_id := id; at_phase := Starting;
                              running := true |}) ids) = [].
Proof. induction ids as [|id ids IH]; [done|]. exact IH. Qed.

Lemma session_inv_init urls : session_inv urls (create_session_init cfg urls).
Proof.
  split; simpl.
  - by rewrite loading_spawned, jobs_urls.
  - by rewrite loading_spawned, sleeping_spawned.
  - discriminate.
Qed.

(** A task that runs belongs to a session that has not returned. *)
Lemma running_not_returned urls st i t :
  session_inv urls st ->
  tabs st !! i = Some t ->
  running t = true ->
  main st <> Returned.
Proof.
  intros Hinv Hi Hrun Hret.
  destruct (inv_returned _ _ Hinv Hret) as [_ Hstopped].
  rewrite Forall_lookup in Hstopped.
  specialize (Hstopped i t Hi). congruence.
Qed.

Lemma session_inv_step urls l st st' :
  session_inv urls st ->
  step cfg parser l st = Some st' ->
  session_inv urls st'.
Proof.
  intros Hinv Hstep.
  destruct Hinv as [Hcons Hunf Hret].
  assert (Hinv : session_inv urls st) by (split; assumption).
  destruct l as [i| |i|i env|i|i|]; simpl in Hstep.
  all: try (destruct (tabs st !! i) as [t|] eqn:Hi; [|discriminate];
            simpl in Hstep; unfold worker_step in Hstep;
            destruct (running t) eqn:Hrun; [|discriminate];
            simpl in Hstep;
            pose proof (running_not_returned _ _ _ _ Hinv Hi Hrun) as Hmain;
            pose proof (bind_lookup loading_of _ _ _ Hi) as HL;
            pose proof (bind_lookup sleeping_of _ _ _ Hi) as HS;
            pose proof (fun t' => bind_insert loading_of _ _ _ t' Hi) as HL';
            pose proof (fun t' => bind_insert sleeping_of _ _ _ t' Hi) as HS';
            fold (loading (tabs st)) in HL;
            fold (sleeping (tabs st)) in HS;
            set (LR := delete i (tabs st) ≫= loading_of) in *;
            set (SR := delete i (tabs st) ≫= sleeping_of) in *;
            clearbody LR SR;
            unfold loading_of in HL; unfold sleeping_of in HS;
            destruct (at_phase t) as [| |j|j] eqn:Hphase;
            simpl in HL, HS;
            rewrite HL in Hcons; rewrite HL, HS in Hunf;
            try discriminate).
  (* Die, in each of the four phases: a job held stays unacknowledged *)
  6-9: (inversion Hstep; subst; clear Hstep; pool_unchanged HL' HS' Hphase).
  - (* NewPage *)
    inversion Hstep; subst; clear Hstep. split; simpl; [| |done].
    + unfold loading. by rewrite HL'.
    + unfold loading, sleeping. by rewrite HL', HS'.
  - (* Put *)
    destruct (main st) as [[|j pending]|] eqn:Hm; try discriminate.
    unfold put in Hstep. destruct (full (queue st)); [discriminate|].
    inversion Hstep; subst; clear Hstep. split; simpl; [| |done].
    + rewrite <- Hcons. simpl. rewrite map_app. simpl.
      by rewrite <- !app_assoc.
    + rewrite Hunf. solve_len.
  - (* Get *)
    unfold get in Hstep.
    destruct (items (queue st)) as [|j rest] eqn:Hitems; [discriminate|].
    inversion Hstep; subst; clear Hstep. split; simpl; [| |done].
    + unfold loading. rewrite HL'. simpl. rewrite <- Hcons. simpl.
      apply Permutation_app_head, Permutation_middle.
    + unfold loading, sleeping. rewrite HL', HS'. simpl.
      rewrite Hunf. solve_len.
  - (* Load *)
    destruct (_load_page cfg (job_url j) parser env)
      as [[[[result|error] w'] log]|]; [| |discriminate];
      simpl in Hstep; inversion Hstep; subst; clear Hstep;
      split; simpl; try done.
    + unfold loading. rewrite HL'. simpl. rewrite <- Hcons.
      rewrite map_app. simpl.
      destruct (record_outcome_spec (job_url j) result) as (-> & _ & _).
      by rewrite <- !app_assoc.
    + unfold loading, sleeping. rewrite HL', HS'. simpl.
      rewrite Hunf. solve_len.
    + unfold loading. rewrite HL'. unfold loading_of. simpl.
      by rewrite Hphase.
    + unfold loading, sleeping. rewrite HL', HS'.
      unfold loading_of, sleeping_of. simpl. by rewrite Hphase.
  - (* TaskDone *)
    unfold task_done in Hstep.
    destruct (unfinished_tasks (queue st) <=? 0); [discriminate|].
    inversion Hstep; subst; clear Hstep. split; simpl; [| |done].
    + unfold loading. by rewrite HL'.
    + unfold loading, sleeping. rewrite HL', HS'. simpl.
      rewrite Hunf. solve_len.
  - (* Join *)
    destruct (main st) as [[|j pending]|] eqn:Hm; try discriminate.
    destruct (join_ready (queue st)) eqn:Hready; [|discriminate].
    inversion Hstep; subst; clear Hstep. split; simpl.
    + unfold loading. rewrite bind_stop by done. exact Hcons.
    + unfold loading, sleeping. rewrite !bind_stop by done. exact Hunf.
    + intros _. split.
      * unfold join_ready in Hready. lia.
      * apply Forall_fmap, Forall_true. done.
Qed.

End session_facts.

Section session_theorems.
Context {W : Type} `{!Playwright W}.
Variable cfg : config.
Variable parser : extractor W.

Lemma session_inv_run urls ls : forall st st',
  session_inv urls st ->
  run cfg parser ls st = Some st' ->
  session_inv urls st'.
Proof.
  induction ls as [|l ls IH]; intros st st' Hinv Hrun; simpl in Hrun.
  - by inversion Hrun; subst.
  - destruct (step cfg parser l st) as [st1|] eqn:Hstep; [|discriminate].
    simpl in Hrun. eapply IH; [|exact Hrun].
    eapply session_inv_step; eauto.
Qed.

(** C1.  Whatever the schedule, when [_create_session] returns, the
    addresses of the outcomes it returns are the addresses submitted,
    each as many times as it was submitted and in some order: there are
    as many outcomes as addresses, and distinct addresses give outcomes
    with distinct addresses. *)
Theorem completed_session_one_outcome_per_address urls ls results :
  _create_session cfg parser urls ls = Some results ->
  map url results ≡ₚ urls
  /\ length results = length urls
  /\ (NoDup urls -> NoDup (map url results))
  /\ (forall u, u ∈ map url results <-> u ∈ urls).
Proof.
  unfold _create_session. intros Hrun.
  destruct (run cfg parser ls (create_session_init cfg urls)) as [st|]
    eqn:Hst; [|discriminate].
  simpl in Hrun. unfold returned in Hrun.
  destruct (main st) eqn:Hmain; [discriminate|].
  inversion Hrun; subst; clear Hrun.
  pose proof (session_inv_run _ _ _ _ (session_inv_init cfg urls) Hst)
    as [Hcons Hunf Hret].
  destruct (Hret Hmain) as [Hzero _].
  rewrite Hzero in Hunf.
  pose proof (len_nonneg (items (queue st))) as H1.
  pose proof (len_nonneg (loading (tabs st))) as H2.
  pose proof (len_nonneg (sleeping (tabs st))) as H3.
  rewrite (len_zero_nil (items (queue st))),
          (len_zero_nil (loading (tabs st))) in Hcons by lia.
  rewrite Hmain in Hcons. simpl in Hcons. rewrite app_nil_r in Hcons.
  split; [exact Hcons|]. split.
  { rewrite <- (length_map url (session_result st)). by rewrite Hcons. }
  split.
  { intros Hnodup. by rewrite Hcons. }
  intros u. by rewrite Hcons.
Qed.

(** The pool and the capacity of the queue are fixed when the session
    starts, and the queue never holds more than a positive capacity. *)
Lemma step_frame l st st' :
  step cfg parser l st = Some st' ->
  length (tabs st') = length (tabs st)
  /\ maxsize (queue st') = maxsize (queue st)
  /\ (len (items (queue st')) <= len (items (queue st))
      \/ (full (queue st) = false
          /\ len (items (queue st')) = len (items (queue st)) + 1)).
Proof.
  intros Hstep.
  destruct l as [i| |i|i env|i|i|]; simpl in Hstep.
  all: try (destruct (tabs st !! i) as [t|] eqn:Hi; [|discriminate];
            simpl in Hstep; unfold worker_step in Hstep;
            destruct (running t); [|discriminate]; simpl in Hstep;
            destruct (at_phase t) as [| |j|j]; try discriminate).
  all: try (inversion Hstep; subst; clear Hstep; simpl;
            rewrite length_insert; split; [done|split; [done|left; lia]]).
  - destruct (main st) as [[|j pending]|]; try discriminate.
    unfold put in Hstep. destruct (full (queue st)); [discriminate|].
    inversion Hstep; subst; clear Hstep. simpl.
    split; [done|split; [done|right; split; [done|solve_len]]].
  - unfold get in Hstep.
    destruct (items (queue st)) as [|j rest]; [discriminate|].
    inversion Hstep; subst; clear Hstep. simpl.
    rewrite length_insert. split; [done|split; [done|left; solve_len]].
  - destruct (_load_page cfg (job_url j) parser env)
      as [[[[result|error] w'] log]|]; [| |discriminate];
      simpl in Hstep; inversion Hstep; subst; clear Hstep; simpl;
      rewrite length_insert; (split; [done|split; [done|left; lia]]).
  - unfold task_done in Hstep.
    destruct (unfinished_tasks (queue st) <=? 0); [discriminate|].
    inversion Hstep; subst; clear Hstep. simpl.
    rewrite length_insert. split; [done|split; [done|left; lia]].
  - destruct (main st) as [[|j pending]|]; try discriminate.
    destruct (join_ready (queue st)); [|discriminate].
    inversion Hstep; subst; clear Hstep. simpl.
    rewrite length_map. split; [done|split; [done|left; lia]].
Qed.

Lemma run_frame ls : forall st st',
  run cfg parser ls st = Some st' ->
  length (tabs st') = length (tabs st)
  /\ maxsize (queue st') = maxsize (queue st)
  /\ (0 < maxsize (queue st) ->
      len (items (queue st)) <= maxsize (queue st) ->
      len (items (queue st')) <= maxsize (queue st)).
Proof.
  induction ls as [|l ls IH]; intros st st' Hrun; simpl in Hrun.
  - inversion Hrun; subst. auto.
  - destruct (step cfg parser l st) as [st1|] eqn:Hstep; [|discriminate].
    simpl in Hrun. apply IH in Hrun as (Htabs & Hmax & Hbound).
    apply step_frame in Hstep as (Htabs1 & Hmax1 & Hitems).
    split; [lia|]. split; [congruence|].
    intros Hpos Hle. rewrite Hmax1 in Hbound. apply Hbound; [lia|].
    destruct Hitems as [Hitems|[Hfull Hitems]]; [lia|].
    unfold full in Hfull. lia.
Qed.
End session_theorems.

(** *** Sessions that complete *)

Lemma run_app {W} `{!Playwright W} cfg (parser : extractor W) l1 : forall l2 st,
  run cfg parser (l1 ++ l2) st = run cfg parser l1 st ≫= run cfg parser l2.
Proof.
  induction l1 as [|l l1 IH]; intros l2 st; [done|].
  simpl. destruct (step cfg parser l st) as [st1|]; [|done]. simpl. apply IH.
Qed.

(** A page that never answers: each attempt times out. *)
Lemma world_after_unanswered u n :
  world_after (load_page_body u scripted_parser) n [] = [].
Proof. induction n as [|n IH]; [done|]. exact IH. Qed.

Lemma unanswered_load cfg u :
  exists w' log,
    _load_page cfg u scripted_parser [] = Some (Ret PyNone, w', log).
Proof.
  apply load_page_exhausted. intros j _ _. exists TimeoutError.
  rewrite world_after_unanswered. eapply by_never_ending; reflexivity.
Qed.

(** One address goes through the first worker while the others wait. *)
Lemma sequential_block cfg capacity j pending id rest results :
  1 <= capacity ->
  exists results',
    run cfg scripted_parser
      [Put; Get 0%nat; Load 0%nat []; TaskDone 0%nat]
      {| queue := {| maxsize := capacity; items := []; unfinished_tasks := 0 |};
         tabs := {| tab_id := id; at_phase := Waiting; running := true |}
                   :: rest;
         session_result := results;
         main := Feeding (j :: pending) |}
    = Some
      {| queue := {| maxsize := capacity; items := []; unfinished_tasks := 0 |};
         tabs := {| tab_id := id; at_phase := Waiting; running := true |}
                   :: rest;
         session_result := results';
         main := Feeding pending |}.
Proof.
  intros Hcap.
  destruct (unanswered_load cfg (job_url j)) as (w' & log & Hload).
  exists (results ++ [record_outcome (job_url j) PyNone]).
  set (idle := {| tab_id := id; at_phase := Waiting; running := true |}).
  set (q0 := {| maxsize := capacity; items := []; unfinished_tasks := 0 |}).
  set (q1 := {| maxsize := capacity; items := [j]; unfinished_tasks := 1 |}).
  set (q2 := {| maxsize := capacity; items := []; unfinished_tasks := 1 |}).
  set (st0 := {| queue := q0; tabs := idle :: rest; session_result := results;
                 main := Feeding (j :: pending) |}).
  set (st1 := {| queue := q1; tabs := idle :: rest; session_result := results;
                 main := Feeding pending |}).
  set (st2 := {| queue := q2; tabs := set_phase (Loading j) idle :: rest;
                 session_result := results; main := Feeding pending |}).
  set (st3 := {| queue := q2; tabs := set_phase (Sleeping j) idle :: rest;
                 session_result :=
                   results ++ [record_outcome (job_url j) PyNone];
                 main := Feeding pending |}).
  assert (H1 : step cfg scripted_parser Put st0 = Some st1).
  { unfold step, put, full. simpl.
    destruct (Z.leb_spec capacity (len (@nil job))) as [Hle|_];
      [unfold len in Hle; simpl in Hle; lia|].
    by rewrite andb_false_r. }
  assert (H2 : step cfg scripted_parser (Get 0%nat) st1 = Some st2)
    by reflexivity.
  assert (H3 : step cfg scripted_parser (Load 0%nat []) st2 = Some st3).
  { unfold step, worker_step. cbn -[_load_page]. by rewrite Hload. }
  cbn [run]. rewrite H1. cbn [mbind option_bind]. rewrite H2.
  cbn [mbind option_bind]. rewrite H3. reflexivity.
Qed.

Lemma sequential_rounds cfg capacity id rest :
  1 <= capacity ->
  forall pending results,
  exists results',
    run cfg scripted_parser
      (concat (replicate (length pending)
                 [Put; Get 0%nat; Load 0%nat []; TaskDone 0%nat]))
      {| queue := {| maxsize := capacity; items := []; unfinished_tasks := 0 |};
         tabs := {| tab_id := id; at_phase := Waiting; running := true |}
                   :: rest;
         session_result := results;
         main := Feeding pending |}
    = Some
      {| queue := {| maxsize := capacity; items := []; unfinished_tasks := 0 |};
         tabs := {| tab_id := id; at_phase := Waiting; running := true |}
                   :: rest;
         session_result := results';
         main := Feeding [] |}.
Proof.
  intros Hcap pending. induction pending as [|j pending IH]; intros results.
  - exists results. reflexivity.
  - destruct (sequential_block cfg capacity j pending id rest results Hcap)
      as [results1 Hblock].
    destruct (IH results1) as [results' Hrest].
    exists results'. cbn [length replicate concat].
    rewrite run_app, Hblock. exact Hrest.
Qed.

(** Every session can complete: whatever the addresses, as soon as one
    worker is allowed there is a schedule under which [_create_session]
    returns. *)
Lemma session_can_complete cfg urls :
  1 <= WORKER_LIMIT cfg ->
  exists results,
    _create_session cfg scripted_parser urls (sequential urls) = Some results.
Proof.
  intros Hlimit. unfold _create_session.
  destruct urls as [|u urls]; [by eexists|].
  set (all := u :: urls).
  assert (Hcount : exists n, new_tabs_count cfg all + 1 - 1 = Z.pos n).
  { unfold new_tabs_count. subst all. unfold len. simpl length.
    destruct (Z.ltb_spec (Z.of_nat (S (length urls))) (WORKER_LIMIT cfg)).
    - exists (Pos.of_nat (S (length urls))). lia.
    - destruct (WORKER_LIMIT cfg) as [|n|n]; try lia. exists n. lia. }
  destruct Hcount as [n Hn].
  assert (Htabs : exists rest,
             tabs (create_session_init cfg all)
             = {| tab_id := 1; at_phase := Starting; running := true |}
                 :: rest).
  { unfold create_session_init, range. cbn [tabs]. rewrite Hn.
    destruct (Pos2Nat.is_succ n) as [m Hm].
    change (Z.to_nat (Z.pos n)) with (Pos.to_nat n). rewrite Hm.
    cbn [seq map]. eauto. }
  destruct Htabs as [rest Htabs].
  unfold sequential. subst all. cbn [run].
  assert (Hnew : step cfg scripted_parser (NewPage 0%nat)
                   (create_session_init cfg (u :: urls))
                 = Some {| queue := {| maxsize := WORKER_LIMIT cfg;
                                       items := []; unfinished_tasks := 0 |};
                           tabs := {| tab_id := 1; at_phase := Waiting;
                                      running := true |} :: rest;
                           session_result := [];
                           main := Feeding (jobs (u :: urls)) |}).
  { unfold step, worker_step. rewrite Htabs. simpl.
    unfold with_tab. rewrite Htabs. reflexivity. }
  rewrite Hnew. cbn [mbind option_bind]. rewrite run_app.
  destruct (sequential_rounds cfg (WORKER_LIMIT cfg) 1 rest Hlimit
              (jobs (u :: urls)) []) as [results Hrounds].
  unfold jobs in Hrounds at 1. rewrite length_imap in Hrounds.
  rewrite Hrounds. exists results. reflexivity.
Qed.

Lemma completed_session_one_outcome_per_address_witness :
  _create_session cfg_two_workers scripted_parser three_urls interleaved
  = Some [record_outcome "/b.html" product_data;
          record_outcome "/a.html" PyNone;
          record_outcome "/c.html" product_data]
  /\ map url [record_outcome "/b.html" product_data;
              record_outcome "/a.html" PyNone;
              record_outcome "/c.html" product_data] ≡ₚ three_urls.
Proof.
  assert (Hrun :
    _create_session cfg_two_workers scripted_parser three_urls interleaved
    = Some [record_outcome "/b.html" product_data;
            record_outcome "/a.html" PyNone;
            record_outcome "/c.html" product_data])
    by (vm_compute; reflexivity).
  split; [exact Hrun|].
  exact (proj1 (completed_session_one_outcome_per_address
                  cfg_two_workers scripted_parser three_urls interleaved
                  _ Hrun)).
Defined.

Section pool_and_queue.
Variable cfg : config.
Variable urls : list string.

Local Abbreviation init := (create_session_init cfg urls).

Lemma length_range lo hi : len (range lo hi) = Z.max 0 (hi - lo).
Proof. unfold len, range. rewrite length_map, length_seq. lia. Qed.

Lemma pool_size : len (tabs init) = Z.max 0 (new_tabs_count cfg urls).
Proof.
  unfold create_session_init, len. simpl. rewrite length_map.
  fold (len (range 1 (new_tabs_count cfg urls + 1))).
  rewrite length_range. lia.
Qed.

(** C6.  The number of workers spawned is
    [min(len(urls), WORKER_LIMIT)]; they are numbered from 1, and no
    step of the session adds or removes one. *)
Theorem workers_spawned_is_min :
  urls <> [] ->
  0 <= WORKER_LIMIT cfg ->
  len (tabs init) = Z.min (len urls) (WORKER_LIMIT cfg)
  /\ map tab_id (tabs init)
     = range 1 (Z.min (len urls) (WORKER_LIMIT cfg) + 1)
  /\ forall (W : Type) (browser : Playwright W) (parser : extractor W)
            ls st,
       run cfg parser ls init = Some st ->
       len (tabs st) = Z.min (len urls) (WORKER_LIMIT cfg).
Proof.
  intros _ Hlimit.
  assert (Hcount : new_tabs_count cfg urls
                   = Z.min (len urls) (WORKER_LIMIT cfg)).
  { unfold new_tabs_count.
    destruct (Z.ltb_spec (len urls) (WORKER_LIMIT cfg)); lia. }
  assert (Hsize : len (tabs init) = Z.min (len urls) (WORKER_LIMIT cfg)).
  { rewrite pool_size, Hcount. pose proof (len_nonneg urls). lia. }
  split; [exact Hsize|]. split.
  - simpl. rewrite Hcount, map_map. simpl. apply map_id.
  - intros W browser parser ls st Hrun.
    apply run_frame in Hrun as (Htabs & _).
    unfold len in *. rewrite Htabs. exact Hsize.
Qed.

(** C7, amended.  The queue is created with capacity [WORKER_LIMIT],
    whatever the number of addresses, and keeps it; a positive capacity
    is never exceeded.  The pool is no larger than the capacity, and has
    exactly that size when there are at least [WORKER_LIMIT]
    addresses. *)
Theorem queue_capacity_is_WORKER_LIMIT :
  maxsize (queue init) = WORKER_LIMIT cfg
  /\ (forall (W : Type) (browser : Playwright W) (parser : extractor W)
             ls st,
        run cfg parser ls init = Some st ->
        maxsize (queue st) = WORKER_LIMIT cfg
        /\ (1 <= WORKER_LIMIT cfg ->
            len (items (queue st)) <= WORKER_LIMIT cfg))
  /\ (0 <= WORKER_LIMIT cfg -> len (tabs init) <= maxsize (queue init))
  /\ (0 <= WORKER_LIMIT cfg ->
      (maxsize (queue init) = len (tabs init)
       <-> WORKER_LIMIT cfg <= len urls)).
Proof.
  assert (Hsize : 0 <= WORKER_LIMIT cfg ->
            len (tabs init) = Z.min (len urls) (WORKER_LIMIT cfg)).
  { intros Hlimit. rewrite pool_size. unfold new_tabs_count.
    pose proof (len_nonneg urls).
    destruct (Z.ltb_spec (len urls) (WORKER_LIMIT cfg)); lia. }
  split; [reflexivity|]. split; [|split].
  - intros W browser parser ls st Hrun.
    apply run_frame in Hrun as (_ & Hmax & Hbound).
    split; [exact Hmax|]. intros Hpos. simpl in Hbound.
    apply Hbound; [lia|]. unfold len. simpl. lia.
  - intros Hlimit. rewrite (Hsize Hlimit). simpl. lia.
  - intros Hlimit. rewrite (Hsize Hlimit). simpl. lia.
Qed.
End pool_and_queue.

Lemma workers_spawned_is_min_witness :
  three_urls <> []
  /\ 0 <= WORKER_LIMIT cfg_two_workers
  /\ len (tabs (create_session_init cfg_two_workers three_urls)) = 2
  /\ map tab_id (tabs (create_session_init cfg_two_workers three_urls))
     = [1; 2].
Proof.
  split; [discriminate|]. split; [simpl; lia|].
  destruct (workers_spawned_is_min cfg_two_workers three_urls)
    as (Hsize & Hids & _); [discriminate|simpl; lia|].
  split; [exact Hsize|exact Hids].
Defined.

(** C7 as stated fails: the listing crawl submits one address, so one
    worker is spawned, while the queue is created with capacity
    [WORKER_LIMIT = 5]. *)
Lemma queue_capacity_counterexample :
  let st := create_session_init cfg_3_1 [START_URL] in
  maxsize (queue st) = 5
  /\ len (tabs st) = 1
  /\ Z.min (len [START_URL]) (WORKER_LIMIT cfg_3_1) = 1
  /\ maxsize (queue st) <> len (tabs st)
  /\ maxsize (queue st) <> Z.min (len [START_URL]) (WORKER_LIMIT cfg_3_1).
Proof. vm_compute. repeat split; congruence. Qed.

Lemma queue_capacity_is_WORKER_LIMIT_witness :
  maxsize (queue (create_session_init cfg_two_workers three_urls)) = 2
  /\ (exists st,
        run cfg_two_workers scripted_parser interleaved
          (create_session_init cfg_two_workers three_urls) = Some st
        /\ maxsize (queue st) = 2
        /\ len (items (queue st)) <= 2)
  /\ len (tabs (create_session_init cfg_two_workers three_urls))
     <= maxsize (queue (create_session_init cfg_two_workers three_urls)).
Proof.
  destruct (queue_capacity_is_WORKER_LIMIT cfg_two_workers three_urls)
    as (Hcap & Hkeep & Hpool & _).
  split; [exact Hcap|]. split.
  - eexists. split; [vm_compute; reflexivity|].
    edestruct (Hkeep _ _ scripted_parser interleaved) as [Hmax Hbound];
      [vm_compute; reflexivity|].
    split; [exact Hmax|]. apply Hbound. simpl. lia.
  - apply Hpool. simpl. lia.
Defined.

(** ** Request filter *)

Section request_filter.
Variable cfg : config.

(** C8.  The filter aborts a request exactly when its resource type is
    in [EXCLUDED_RES] and lets every other request continue; over a
    trace of requests, those aborted are those of an excluded type and
    those continued are all the others. *)
Theorem filter_aborts_iff_excluded :
  (forall route,
      (_handle_requests cfg route = Abort
       <-> resource_type route ∈ EXCLUDED_RES cfg)
      /\ (_handle_requests cfg route = Continue
          <-> resource_type route ∉ EXCLUDED_RES cfg))
  /\ forall trace : list Route,
      filter (fun route => _handle_requests cfg route = Abort) trace
      = filter (fun route => resource_type route ∈ EXCLUDED_RES cfg) trace
      /\ filter (fun route => _handle_requests cfg route = Continue) trace
         = filter (fun route => resource_type route ∉ EXCLUDED_RES cfg)
                  trace
      /\ (length (filter (fun route => _handle_requests cfg route = Abort)
                         trace)
          + length (filter (fun route =>
                              _handle_requests cfg route = Continue) trace)
          = length trace)%nat.
Proof.
  assert (Hone : forall route,
      (_handle_requests cfg route = Abort
       <-> resource_type route ∈ EXCLUDED_RES cfg)
      /\ (_handle_requests cfg route = Continue
          <-> resource_type route ∉ EXCLUDED_RES cfg)).
  { intros route. unfold _handle_requests.
    destruct (bool_decide_reflect
                (resource_type route ∈ EXCLUDED_RES cfg)); split; split;
      try done. }
  split; [exact Hone|]. intros trace.
  split; [|split].
  - apply list_filter_iff. intros route. apply Hone.
  - apply list_filter_iff. intros route. apply Hone.
  - induction trace as [|route trace IH]; [done|].
    rewrite !filter_cons.
    destruct (_handle_requests cfg route) eqn:Hr;
      repeat case_decide; try done; simpl; lia.
Qed.
End request_filter.

Example mixed_trace_counts :
  map (_handle_requests cfg_3_1) mixed_trace
  = [Continue; Abort; Continue; Abort; Continue].
Proof. vm_compute. reflexivity. Qed.

(** ** Listing crawl *)

Section listing_facts.
Variable web : site.

Lemma get_urls_on_page_cards page : get_urls_on_page page = product_cards page.
Proof.
  unfold get_urls_on_page. by destruct (product_cards page).
Qed.

(** A crawl through [pages] makes the loop return their batches, in the
    order of the visit, on the last of them. *)
Lemma listing_loop_crawl page pages :
  crawl web page pages ->
  forall fuel product_urls,
    (length pages <= fuel)%nat ->
    exists final,
      last pages = Some final
      /\ stops_at final = true
      /\ listing_loop web fuel page product_urls
         = Some (Ret (product_urls ++ concat (map product_cards pages)),
                 final).
Proof.
  induction 1 as [page Hstop|page next page' pages Hnext Htruthy Hweb _ IH];
    intros fuel product_urls Hfuel.
  - exists page. split; [done|]. split; [unfold stops_at; by rewrite Hstop|].
    destruct fuel as [|fuel]; [simpl in Hfuel; lia|].
    cbn [listing_loop map concat].
    rewrite get_urls_on_page_cards, app_nil_r.
    destruct (get_next_page_url page) as [next|]; [|done].
    by rewrite Hstop.
  - destruct fuel as [|fuel]; [simpl in Hfuel; lia|].
    destruct (IH fuel (product_urls ++ product_cards page))
      as (final & Hlast & Hstops & Hrun); [simpl in Hfuel; lia|].
    exists final. split.
    { destruct pages as [|p pages]; [discriminate|]. exact Hlast. }
    split; [exact Hstops|].
    cbn [listing_loop]. rewrite get_urls_on_page_cards, Hnext, Htruthy, Hweb.
    rewrite Hrun. simpl. by rewrite <- app_assoc.
Qed.

(** When the loop returns, it has been through a crawl. *)
Lemma listing_loop_returns fuel : forall page product_urls urls final,
  listing_loop web fuel page product_urls = Some (Ret urls, final) ->
  exists pages,
    crawl web page pages
    /\ last pages = Some final
    /\ urls = product_urls ++ concat (map product_cards pages).
Proof.
  induction fuel as [|fuel IH]; intros page product_urls urls final Hrun;
    [discriminate|].
  cbn [listing_loop] in Hrun. rewrite get_urls_on_page_cards in Hrun.
  destruct (get_next_page_url page) as [next|] eqn:Hnext.
  - destruct (truthy_str (Some next)) eqn:Htruthy.
    + destruct (web next) as [page'|] eqn:Hweb; [|discriminate].
      apply IH in Hrun as (pages & Hcrawl & Hlast & ->).
      exists (page :: pages). split; [by eapply crawl_next|]. split.
      * inversion Hcrawl; subst; exact Hlast.
      * simpl. by rewrite <- app_assoc.
    + inversion Hrun; subst. exists [final].
      split; [apply crawl_stop; by rewrite Hnext|].
      split; [done|]. simpl. by rewrite app_nil_r.
  - inversion Hrun; subst. exists [final].
    split; [apply crawl_stop; by rewrite Hnext|].
    split; [done|]. simpl. by rewrite app_nil_r.
Qed.

(** Along a crawl, the page the loop stops at is the last one. *)
Lemma crawl_stops_at_end page pages :
  crawl web page pages ->
  forall i p, pages !! i = Some p ->
              (stops_at p = true <-> S i = length pages).
Proof.
  induction 1 as [page Hstop|page next page' pages Hnext Htruthy Hweb Hc IH];
    intros i p Hi.
  - destruct i as [|i]; [|done]. inversion Hi; subst.
    unfold stops_at. rewrite Hstop. done.
  - destruct i as [|i].
    + inversion Hi; subst. unfold stops_at. rewrite Hnext, Htruthy.
      simpl. split; [done|]. intros Hlen.
      inversion Hc; subst; simpl in Hlen; lia.
    + simpl in Hi. rewrite (IH i p Hi). simpl. lia.
Qed.

(** C9, amended.  The loop stops on a page exactly when the first
    element matching the "next page" selector is missing, is not
    visible, or has a missing or empty [href]; a page without any
    visible next control is such a page.  When the pages are visited
    along a crawl, the loop returns on the last page of the crawl, the
    only one it stops at, and the sequence returned is the concatenation
    of the batches of links of the pages in the order of the visit; and
    a loop that returns has visited such a crawl. *)
Theorem listing_crawl_concatenates :
  (forall page,
      stops_at page = true
      <-> match next_links page with
          | [] => True
          | next_button :: _ =>
              visible next_button = false
              \/ truthy_str (href next_button) = false
          end)
  /\ (forall page, has_visible_next page = false -> stops_at page = true)
  /\ (forall page pages,
        crawl web page pages ->
        (forall i p, pages !! i = Some p ->
                     (stops_at p = true <-> S i = length pages))
        /\ forall fuel, (length pages <= fuel)%nat ->
             exists final,
               last pages = Some final
               /\ _listing_parser web fuel page
                  = Some (Ret (concat (map product_cards pages)), final))
  /\ (forall fuel page urls final,
        _listing_parser web fuel page = Some (Ret urls, final) ->
        exists pages,
          crawl web page pages
          /\ last pages = Some final
          /\ urls = concat (map product_cards pages)).
Proof.
  split; [|split; [|split]].
  - intros page. unfold stops_at, get_next_page_url.
    destruct (next_links page) as [|next_button rest]; [done|].
    destruct (visible next_button); simpl.
    + destruct (truthy_str (href next_button)); simpl.
      * split; [done|]. by intros [|].
      * split; [by right|done].
    + split; [by left|done].
  - intros page. unfold has_visible_next, stops_at, get_next_page_url.
    destruct (next_links page) as [|next_button rest]; [done|].
    simpl. destruct (visible next_button); [discriminate|done].
  - intros page pages Hcrawl.
    split; [exact (crawl_stops_at_end page pages Hcrawl)|].
    intros fuel Hfuel.
    destruct (listing_loop_crawl page pages Hcrawl fuel [] Hfuel)
      as (final & Hlast & _ & Hrun).
    exists final. split; [exact Hlast|]. exact Hrun.
  - intros fuel page urls final Hrun.
    apply listing_loop_returns in Hrun as (pages & Hcrawl & Hlast & ->).
    eauto.
Qed.
End listing_facts.

Lemma two_page_crawl :
  crawl two_page_listing listing_page_1 [listing_page_1; listing_page_2].
Proof.
  eapply crawl_next; [reflexivity|reflexivity|reflexivity|].
  apply crawl_stop. reflexivity.
Defined.

Lemma listing_crawl_concatenates_witness :
  crawl two_page_listing listing_page_1 [listing_page_1; listing_page_2]
  /\ exists final,
      _listing_parser two_page_listing 2 listing_page_1
      = Some (Ret (links_from 0 20 ++ links_from 20 10), final)
      /\ final = listing_page_2
      /\ length (links_from 0 20 ++ links_from 20 10) = 30%nat.
Proof.
  split; [exact two_page_crawl|].
  destruct (listing_crawl_concatenates two_page_listing)
    as (_ & _ & Hcrawl & _).
  destruct (Hcrawl _ _ two_page_crawl) as [_ Hrun].
  destruct (Hrun 2%nat) as (final & Hlast & Hparse); [simpl; lia|].
  exists final. split.
  - rewrite Hparse. reflexivity.
  - split; [by inversion Hlast|reflexivity].
Defined.

(** C9 as stated fails: on a page whose next control is visible but has no
    [href], the loop stops and returns. *)
Lemma visible_next_without_href_counterexample :
  has_visible_next dangling_next_page = true
  /\ stops_at dangling_next_page = true
  /\ _listing_parser two_page_listing 5 dangling_next_page
     = Some (Ret [Some "/x.html"], dangling_next_page)
  /\ ~ (forall page, stops_at page = true <-> has_visible_next page = false).
Proof.
  split; [reflexivity|]. split; [reflexivity|]. split; [reflexivity|].
  intros H. destruct (H dangling_next_page) as [Hstop _].
  specialize (Hstop eq_refl). discriminate Hstop.
Qed.

(** ** Item fetch *)

(** The scenario of the specification: of three addresses one always
    fails; the final products are three outcomes, one of them marked
    unsuccessful. *)
Example fetch_products_one_always_fails :
  fetch_products (scheduled_session cfg_two_workers scripted_parser)
    three_urls one_always_fails
  = Some ([ {| url := "/b.html"; is_successful := true;
               data := product_data |};
            {| url := "/c.html"; is_successful := true;
               data := product_data |};
            {| url := "/a.html"; is_successful := false;
               data := PyNone |} ], []).
Proof. vm_compute. reflexivity. Qed.

(** C2 fails on the code.  With two addresses that both fail in rounds 1
    and 2, and of which the first succeeds and the second fails in round
    3, the successful outcome of round 3 is appended by line 203 and once
    more, with the whole round, by line 210: the products hold three
    outcomes for two addresses, the first address twice. *)
Theorem final_round_success_recorded_twice :
  exists products,
    fetch_products (scheduled_session cfg_two_workers scripted_parser)
      two_urls late_success
    = Some (products, [])
    /\ products
       = [ {| url := "/a.html"; is_successful := true;
              data := product_data |};
           {| url := "/a.html"; is_successful := true;
              data := product_data |};
           {| url := "/b.html"; is_successful := false;
              data := PyNone |} ]
    /\ length products = 3%nat
    /\ length two_urls = 2%nat
    /\ ~ NoDup (map url products)
    /\ ~ map url products ≡ₚ two_urls.
Proof.
  eexists. split; [vm_compute; reflexivity|]. split; [reflexivity|].
  split; [reflexivity|]. split; [reflexivity|]. split.
  - simpl. intros Hnodup. apply NoDup_cons in Hnodup as [Hnotin _].
    apply Hnotin. by left.
  - simpl. intros Hperm. apply Permutation_length in Hperm. discriminate.
Qed.

Section pipeline_facts.
Context {S : Type}.
Variable product_session :
  list string -> S -> option (list ScrapeResult * S).

(** Every session that returns gives one outcome per address. *)
Hypothesis sessions_complete : forall urls s attempt s',
  product_session urls s = Some (attempt, s') ->
  map url attempt ≡ₚ urls.

Lemma partition_by_success (attempt : list ScrapeResult) :
  map url (filter (fun item => is_successful item = true) attempt)
    ++ map url (filter (fun item => is_successful item = false) attempt)
  ≡ₚ map url attempt.
Proof.
  rewrite <- map_app.
  rewrite (list_filter_iff (fun item => is_successful item = false)
             (fun item => ~ is_successful item = true)).
  - by rewrite filter_app_complement.
  - intros item. by destruct (is_successful item).
Qed.

(** One iteration of the loop. *)
Lemma fetch_products_loop_unfold r u urls result s :
  fetch_products_loop product_session (Datatypes.S r) (u :: urls) result s
  = '(attempt, s) ← product_session (u :: urls) s;
    match map url (filter (fun item => is_successful item = false) attempt)
    with
    | [] =>
        Some (result
                ++ filter (fun item => is_successful item = true) attempt,
              s)
    | u' :: urls' =>
        fetch_products_loop product_session r (u' :: urls')
          (if Nat.eqb r 0
           then (result
                   ++ filter (fun item => is_successful item = true) attempt)
                  ++ attempt
           else result
                  ++ filter (fun item => is_successful item = true) attempt)
          s
    end.
Proof.
  cbn [fetch_products_loop].
  destruct (product_session (u :: urls) s) as [[attempt s1]|]; [|done].
  cbn [mbind option_bind].
  by destruct (map url (filter (fun item => is_successful item = false)
                          attempt)).
Qed.

(** No address is left out of the products: every address submitted
    has an outcome, whatever the rounds do. *)
Lemma fetch_products_loop_no_omission remaining_retries :
  forall urls result s products s',
    fetch_products_loop product_session (Datatypes.S remaining_retries)
      urls result s = Some (products, s') ->
    map url result ++ urls ⊆+ map url products.
Proof.
  induction remaining_retries as [|r IH];
    intros urls result s products s' Hrun;
    (destruct urls as [|u urls];
     [inversion Hrun; subst; by rewrite app_nil_r|]);
    rewrite fetch_products_loop_unfold in Hrun;
    destruct (product_session (u :: urls) s) as [[attempt s1]|] eqn:Hs;
    try discriminate; cbn [mbind option_bind] in Hrun;
    pose proof (sessions_complete _ _ _ _ Hs) as Hperm;
    pose proof (partition_by_success attempt) as Hpart;
    destruct (map url (filter (fun item => is_successful item = false)
                         attempt)) as [|u1 urls1] eqn:Hfailed.
  - inversion Hrun; subst. rewrite map_app, <- Hperm, <- Hpart.
    by rewrite app_nil_r.
  - simpl in Hrun. inversion Hrun; subst.
    rewrite !map_app, <- Hperm at 1.
    rewrite <- app_assoc. apply submseteq_skips_l, submseteq_inserts_l.
    done.
  - inversion Hrun; subst. rewrite map_app, <- Hperm, <- Hpart.
    by rewrite app_nil_r.
  - change (Nat.eqb (Datatypes.S r) 0) with false in Hrun.
    cbv iota in Hrun. apply IH in Hrun. rewrite <- Hrun.
    rewrite map_app, <- app_assoc, Hpart, Hperm. done.
Qed.

Lemma fetch_products_no_omission urls s products s' :
  fetch_products product_session urls s = Some (products, s') ->
  urls ⊆+ map url products.
Proof. apply (fetch_products_loop_no_omission 2 urls []). Qed.
End pipeline_facts.

(** * Further properties *)

(** ** More on the retry wrapper *)

Section retry_more.
Context {W I : Type}.
Variable cfg : config.
Variable max_retries : Z.
Variable func : coroutine W I.

Local Abbreviation factor := (RETRY_DELAY_FACTOR cfg).

Lemma world_after_S n : forall w,
  world_after func (S n) w = (func (world_after func n w)).1.2.
Proof.
  induction n as [|n IH]; intros w; [done|].
  change (world_after func (S (S n)) w)
    with (world_after func (S n) (func w).1.2).
  rewrite IH. done.
Qed.

Lemma attempts_attempt (log : list (retry_event I)) k (evs : list I) :
  attempts (log ++ Attempt k :: map Inner evs) = attempts log ++ [k].
Proof.
  rewrite attempts_app.
  change (attempts (Attempt k :: map Inner evs))
    with (k :: attempts (map Inner evs)).
  by rewrite attempts_Inner.
Qed.

Lemma backoffs_attempt (log : list (retry_event I)) k (evs : list I) :
  backoffs (log ++ Attempt k :: map Inner evs) = backoffs log.
Proof.
  rewrite backoffs_app.
  change (backoffs (Attempt k :: map Inner evs))
    with (backoffs (map Inner evs)).
  by rewrite backoffs_Inner, app_nil_r.
Qed.

(** The attempts a run of the loop adds to the trace are numbered on from
    the attempts before, stay within the budget, and the world is the one
    left by as many calls. *)
Lemma retry_loop_attempts fuel : forall attempt w log r w' log',
  retry_loop cfg max_retries func fuel attempt w log = Some (r, w', log') ->
  exists m : nat,
    attempts log'
    = attempts log ++ map (fun j => attempt + Z.of_nat j) (seq 1 m)
    /\ (m = 0%nat \/ attempt + Z.of_nat m <= max_retries)
    /\ w' = world_after func m w
    /\ (length (backoffs log') <= length (backoffs log) + m)%nat.
Proof.
  induction fuel as [|fuel IH]; intros attempt w log r w' log' Hrun;
    [discriminate|].
  simpl in Hrun. destruct (Z.ltb_spec attempt max_retries) as [Hlt|Hge].
  - destruct (func w) as [[[v|error] w1] evs] eqn:Hf.
    + inversion Hrun; subst. exists 1%nat.
      rewrite attempts_attempt, backoffs_attempt. simpl. rewrite Hf.
      split; [done|]. split; [right; lia|]. split; [done|]. lia.
    + destruct (isinstance_Exception error).
      * apply IH in Hrun as (m & Hatt & Hle & Hw & Hback).
        exists (S m). split; [|split; [|split]].
        -- rewrite Hatt, attempts_app, attempts_attempt. simpl.
           rewrite app_nil_r, <- app_assoc. simpl. do 2 f_equal.
           rewrite <- (seq_shift m 1), map_map. apply map_ext. intros j. lia.
        -- right. destruct Hle as [->|Hle]; lia.
        -- rewrite Hw. cbn [world_after]. by rewrite Hf.
        -- etransitivity; [exact Hback|].
           rewrite backoffs_app, backoffs_attempt, length_app. simpl. lia.
      * inversion Hrun; subst. exists 1%nat.
        rewrite attempts_attempt, backoffs_attempt. simpl. rewrite Hf.
        split; [done|]. split; [right; lia|]. split; [done|]. lia.
  - inversion Hrun; subst. exists 0%nat. simpl. rewrite app_nil_r.
    split; [done|]. split; [by left|]. split; [done|]. lia.
Qed.

(** X1.  Whatever the wrapped operation does, the wrapper ends; it has
    called the operation some [n] times, at most [max_retries] (never, for
    a budget that is not positive), the attempts being numbered 1 to [n];
    and it has slept at most once per call. *)
Theorem retry_stays_within_budget w :
  exists r w' log (n : nat),
    _retry cfg max_retries func w = Some (r, w', log)
    /\ attempts log = range 1 (Z.of_nat n + 1)
    /\ Z.of_nat n <= Z.max 0 max_retries
    /\ w' = world_after func n w
    /\ (length (backoffs log) <= n)%nat.
Proof.
  destruct (_retry_total cfg max_retries func w) as [[[r w'] log] Hrun].
  destruct (retry_loop_attempts _ _ _ _ _ _ _ Hrun)
    as (n & Hatt & Hle & Hw & Hback).
  exists r, w', log, n. split; [exact Hrun|]. split; [|split; [|split]].
  - rewrite Hatt. unfold range. simpl.
    replace (Z.to_nat (Z.of_nat n + 1 - 1)) with n by lia.
    rewrite <- (seq_shift n 0), map_map. apply map_ext. intros j. lia.
  - destruct Hle as [->|Hle]; lia.
  - exact Hw.
  - simpl in Hback. lia.
Qed.

(** An attempt that raises an error [except Exception] does not catch
    ends the loop with that error. *)
Lemma retry_loop_propagates fuel attempt w log error :
  attempt < max_retries ->
  (func w).1.1 = Raise error ->
  isinstance_Exception error = false ->
  retry_loop cfg max_retries func (S fuel) attempt w log
  = Some (Raise error, (func w).1.2,
          log ++ Attempt (attempt + 1) :: map Inner (func w).2).
Proof.
  intros Hlt Hraise Hexc. simpl.
  destruct (Z.ltb_spec attempt max_retries) as [_|]; [|lia].
  destruct (func w) as [[r w'] evs]. simpl in *. subst. by rewrite Hexc.
Qed.

Lemma total_backoff_attempt k (evs : list I) :
  total_backoff (Attempt k :: map Inner evs) = 0.
Proof.
  change (Attempt k :: map Inner evs)
    with ([Attempt (I:=I) k] ++ map Inner evs).
  rewrite total_backoff_app. unfold total_backoff.
  by rewrite backoffs_Inner.
Qed.

Lemma attempts_up_to (k : nat) :
  (1 <= k)%nat ->
  map (fun j => 0 + Z.of_nat j) (seq 1 (pred k)) ++ [0 + Z.of_nat (pred k) + 1]
  = range 1 (Z.of_nat k + 1).
Proof.
  intros Hk. unfold range.
  replace (Z.to_nat (Z.of_nat k + 1 - 1)) with (pred k + 1)%nat by lia.
  rewrite seq_app, map_app. simpl. f_equal.
  - rewrite <- (seq_shift (pred k) 0), map_map.
    apply map_ext. intros j. lia.
  - f_equal. lia.
Qed.

(** X2.  When attempts 1 to [k - 1] fail with caught errors and attempt
    [k], within the budget, returns, the wrapper returns that value after
    exactly [k] calls, having waited
    [RETRY_DELAY_FACTOR * (1 + ... + (k - 1))] in all. *)
Theorem retry_returns_first_success w (k : nat) v :
  (1 <= k)%nat ->
  Z.of_nat k <= max_retries ->
  (forall j, (1 <= j < k)%nat ->
             caught (result_of_attempt func w j) = true) ->
  result_of_attempt func w k = Ret v ->
  exists log,
    _retry cfg max_retries func w = Some (Ret v, world_after func k w, log)
    /\ attempts log = range 1 (Z.of_nat k + 1)
    /\ 2 * total_backoff log = factor * (Z.of_nat k - 1) * Z.of_nat k.
Proof.
  intros Hk Hle Hfail Hret. unfold result_of_attempt in Hret.
  eexists. split; [|split].
  - unfold _retry.
    replace (S (Z.to_nat max_retries))
      with (pred k + S (S (Z.to_nat max_retries) - k))%nat by lia.
    rewrite retry_loop_caught; [|intros; apply Hfail; lia|lia].
    erewrite retry_loop_returns; [|lia|exact Hret].
    rewrite <- world_after_S. replace (S (pred k)) with k by lia.
    reflexivity.
  - rewrite attempts_attempt, app_nil_l, attempts_failed_log.
    apply attempts_up_to. exact Hk.
  - rewrite app_nil_l, total_backoff_app, total_backoff_attempt.
    pose proof (total_backoff_failed_log func factor (pred k) 0 w) as Hsum.
    replace (Z.of_nat (pred k)) with (Z.of_nat k - 1) in Hsum by lia.
    lia.
Qed.

(** X3.  When attempts 1 to [k - 1] fail with caught errors and attempt
    [k] raises an error that is not an [Exception] (a cancellation), the
    wrapper lets that error through at once: [k] calls, no wait after the
    last. *)
Theorem retry_lets_cancellation_through w (k : nat) error :
  (1 <= k)%nat ->
  Z.of_nat k <= max_retries ->
  (forall j, (1 <= j < k)%nat ->
             caught (result_of_attempt func w j) = true) ->
  result_of_attempt func w k = Raise error ->
  isinstance_Exception error = false ->
  exists log,
    _retry cfg max_retries func w
    = Some (Raise error, world_after func k w, log)
    /\ attempts log = range 1 (Z.of_nat k + 1)
    /\ delay_after (Z.of_nat k) log = None.
Proof.
  intros Hk Hle Hfail Hraise Hexc. unfold result_of_attempt in Hraise.
  eexists. split; [|split].
  - unfold _retry.
    replace (S (Z.to_nat max_retries))
      with (pred k + S (S (Z.to_nat max_retries) - k))%nat by lia.
    rewrite retry_loop_caught; [|intros; apply Hfail; lia|lia].
    erewrite retry_loop_propagates; [|lia|exact Hraise|exact Hexc].
    rewrite <- world_after_S. replace (S (pred k)) with k by lia.
    reflexivity.
  - rewrite attempts_attempt, app_nil_l, attempts_failed_log.
    apply attempts_up_to. exact Hk.
  - rewrite app_nil_l.
    replace (0 + Z.of_nat (pred k) + 1) with (Z.of_nat k) by lia.
    generalize (func (world_after func (pred k) w)).2. intros evs.
    assert (Hskip : forall m a w0 tail,
               a + Z.of_nat m < Z.of_nat k ->
               delay_after (Z.of_nat k) (failed_log func factor m a w0 ++ tail)
               = delay_after (Z.of_nat k) tail).
    { induction m as [|m IH]; intros a w0 tail Hlt; [done|].
      cbn [failed_log app delay_after].
      destruct (Z.eqb_spec (a + 1) (Z.of_nat k)); [lia|].
      rewrite <- app_assoc, delay_after_Inner. cbn [app delay_after].
      apply IH. lia. }
    rewrite Hskip by lia. cbn [delay_after]. rewrite Z.eqb_refl.
    rewrite <- (app_nil_r (map Inner evs)), next_backoff_Inner. done.
Qed.
End retry_more.

Section retry_errors.
Context {W I : Type}.
Variable cfg : config.
Variable max_retries : Z.
Variable func : coroutine W I.

Lemma retry_loop_raises fuel : forall attempt w log error w' log',
  retry_loop cfg max_retries func fuel attempt w log
  = Some (Raise error, w', log') ->
  isinstance_Exception error = false.
Proof.
  induction fuel as [|fuel IH]; intros attempt w log error w' log' Hrun;
    [discriminate|].
  simpl in Hrun. destruct (attempt <? max_retries); [|discriminate].
  destruct (func w) as [[[v|error1] w1] evs]; [discriminate|].
  destruct (isinstance_Exception error1) eqn:Hexc.
  - eapply IH, Hrun.
  - by inversion Hrun; subst.
Qed.

(** X4.  The wrapper never raises an error that [except Exception]
    catches: the errors of the taxonomy never reach its caller. *)
Theorem retry_raises_only_uncaught w error w' log :
  _retry cfg max_retries func w = Some (Raise error, w', log) ->
  isinstance_Exception error = false
  /\ error <> NavigationError /\ error <> ExtractionError
  /\ error <> TimeoutError.
Proof.
  intros Hrun. apply retry_loop_raises in Hrun.
  split; [exact Hrun|]. by destruct error.
Qed.

(** What holds of the trace before the loop and is kept by the record of
    an attempt and by the record of a wait holds of the trace after. *)
Lemma retry_loop_invariant (Q : list (retry_event I) -> Prop) fuel :
  (forall log k w, Q log -> Q (log ++ Attempt k :: map Inner (func w).2)) ->
  (forall log d, Q log -> Q (log ++ [Backoff d])) ->
  forall attempt w log r w' log',
    Q log ->
    retry_loop cfg max_retries func fuel attempt w log = Some (r, w', log') ->
    Q log'.
Proof.
  intros Hattempt Hbackoff.
  induction fuel as [|fuel IH]; intros attempt w log r w' log' HQ Hrun;
    [discriminate|].
  simpl in Hrun. destruct (attempt <? max_retries).
  - specialize (Hattempt log (attempt + 1) w HQ).
    destruct (func w) as [[[v|error] w1] evs]; simpl in Hattempt.
    + by inversion Hrun; subst.
    + destruct (isinstance_Exception error).
      * eapply IH; [|exact Hrun]. by apply Hbackoff.
      * by inversion Hrun; subst.
  - by inversion Hrun; subst.
Qed.
End retry_errors.

Section load_page_more.
Context {W : Type} `{!Playwright W}.
Variable cfg : config.
Variable u : string.
Variable parser : extractor W.

(** X5.  With [MAX_RETRIES <= 0] the page is never opened: [_load_page]
    returns [None] at once, leaving the world as it is, and the worker
    records a failure. *)
Theorem no_budget_no_page_load w :
  MAX_RETRIES cfg <= 0 ->
  _load_page cfg u parser w = Some (Ret PyNone, w, [])
  /\ record_outcome u PyNone
     = {| url := u; is_successful := false; data := PyNone |}.
Proof.
  intros Hmax. split; [|reflexivity].
  unfold _load_page, _retry. by rewrite retry_loop_gives_up by lia.
Qed.

Lemma gotos_app (l1 l2 : list (retry_event page_event)) :
  gotos (l1 ++ l2) = gotos l1 ++ gotos l2.
Proof. apply omap_app. Qed.

Lemma extract_times_app (l1 l2 : list (retry_event page_event)) :
  extract_times (l1 ++ l2) = extract_times l1 ++ extract_times l2.
Proof. apply omap_app. Qed.

(** One run of the body navigates once and invokes the extractor at most
    once, after the navigation. *)
Lemma load_page_body_events w :
  (load_page_body u parser w).2 = [Goto u]
  \/ exists spent, (load_page_body u parser w).2 = [Goto u; Extract spent].
Proof.
  unfold load_page_body.
  destruct (page_goto u w) as [[x|error] w1]; [|by left].
  destruct (parser w1) as [aw w2]. destruct (wait_for aw 3) as [r spent].
  right. by exists spent.
Qed.

(** X6.  Every attempt of [_load_page] opens the address again: the
    trace has one navigation to [u] per attempt, and at most one
    invocation of the extractor per attempt. *)
Theorem every_attempt_navigates_again w :
  exists r w' log,
    _load_page cfg u parser w = Some (r, w', log)
    /\ gotos log = replicate (length (attempts log)) u
    /\ (length (extract_times log) <= length (attempts log))%nat.
Proof.
  destruct (_retry_total cfg (MAX_RETRIES cfg) (load_page_body u parser) w)
    as [[[r w'] log] Hrun].
  exists r, w', log. split; [exact Hrun|].
  eapply (retry_loop_invariant cfg (MAX_RETRIES cfg) (load_page_body u parser)
            (fun log =>
               gotos log = replicate (length (attempts log)) u
               /\ (length (extract_times log) <= length (attempts log))%nat));
    [| | |exact Hrun].
  - intros log0 k w0 [Hg He].
    change (Attempt k :: map Inner (load_page_body u parser w0).2)
      with ([Attempt (I:=page_event) k]
              ++ map Inner (load_page_body u parser w0).2).
    rewrite !gotos_app, !attempts_app, !extract_times_app, attempts_Inner.
    rewrite !length_app, Hg.
    destruct (load_page_body_events w0) as [->|[spent ->]]; simpl;
      (split; [|lia]); by rewrite Nat.add_1_r, replicate_S_end.
  - intros log0 d [Hg He].
    rewrite gotos_app, attempts_app, extract_times_app. simpl.
    rewrite !app_nil_r. done.
  - done.
Qed.
End load_page_more.

Lemma retry_returns_first_success_witness :
  exists log,
    _retry cfg_3_1 3 third_call_returns 0%nat
    = Some (Ret (PyInt 2), 3%nat, log)
    /\ attempts log = [1; 2; 3]
    /\ 2 * total_backoff log = 1 * (3 - 1) * 3.
Proof.
  apply (retry_returns_first_success cfg_3_1 3 third_call_returns 0%nat 3
           (PyInt 2)).
  - lia.
  - lia.
  - intros j Hj. destruct j as [|[|[|j]]]; [lia|reflexivity|reflexivity|lia].
  - reflexivity.
Defined.

Lemma retry_lets_cancellation_through_witness :
  exists log,
    _retry cfg_3_1 3 cancelled_third 0%nat
    = Some (Raise CancelledError, 3%nat, log)
    /\ attempts log = [1; 2; 3]
    /\ delay_after 3 log = None.
Proof.
  apply (retry_lets_cancellation_through cfg_3_1 3 cancelled_third 0%nat 3
           CancelledError).
  - lia.
  - lia.
  - intros j Hj. destruct j as [|[|[|j]]]; [lia|reflexivity|reflexivity|lia].
  - reflexivity.
  - reflexivity.
Defined.

Lemma retry_raises_only_uncaught_witness :
  _retry cfg_3_1 3 cancelled_third 0%nat
  = Some (Raise CancelledError, 3%nat,
          [Attempt 1; Backoff 1; Attempt 2; Backoff 2; Attempt 3])
  /\ isinstance_Exception CancelledError = false.
Proof.
  split; [reflexivity|].
  exact (proj1 (retry_raises_only_uncaught cfg_3_1 3 cancelled_third 0%nat
                  CancelledError 3%nat _ eq_refl)).
Defined.

Lemma no_budget_no_page_load_witness :
  MAX_RETRIES cfg_no_attempt <= 0
  /\ _load_page cfg_no_attempt "/p.html" scripted_parser loads_fine
     = Some (Ret PyNone, loads_fine, []).
Proof.
  split; [simpl; lia|].
  apply (no_budget_no_page_load cfg_no_attempt "/p.html" scripted_parser
           loads_fine).
  simpl. lia.
Defined.

(** ** More on sessions *)

Section session_more.
Context {W : Type} `{!Playwright W}.
Variable cfg : config.
Variable parser : extractor W.

Local Abbreviation init := (create_session_init cfg).

Lemma session_inv_reached urls ls st :
  run cfg parser ls (init urls) = Some st -> session_inv urls st.
Proof. apply session_inv_run, session_inv_init. Qed.

(** A session that has returned has recorded the addresses submitted. *)
Lemma returned_session_conserved urls ls st :
  run cfg parser ls (init urls) = Some st ->
  main st = Returned ->
  map url (session_result st) ≡ₚ urls
  /\ items (queue st) = []
  /\ loading (tabs st) = []
  /\ sleeping (tabs st) = [].
Proof.
  intros Hrun Hmain.
  destruct (session_inv_reached _ _ _ Hrun) as [Hcons Hunf Hret].
  destruct (Hret Hmain) as [Hzero _]. rewrite Hzero in Hunf.
  pose proof (len_nonneg (items (queue st))) as H1.
  pose proof (len_nonneg (loading (tabs st))) as H2.
  pose proof (len_nonneg (sleeping (tabs st))) as H3.
  assert (Hitems : items (queue st) = []) by (apply len_zero_nil; lia).
  assert (Hload : loading (tabs st) = []) by (apply len_zero_nil; lia).
  assert (Hsleep : sleeping (tabs st) = []) by (apply len_zero_nil; lia).
  rewrite Hitems, Hload, Hmain in Hcons. simpl in Hcons.
  rewrite app_nil_r in Hcons. done.
Qed.

(** A step leaves the outcomes as they are or appends the outcome of the
    job a worker was loading. *)
Lemma step_results l st st' :
  step cfg parser l st = Some st' ->
  session_result st' = session_result st
  \/ exists i t j result,
       tabs st !! i = Some t /\ at_phase t = Loading j
       /\ session_result st'
          = session_result st ++ [record_outcome (job_url j) result].
Proof.
  intros Hstep.
  destruct l as [i| |i|i env|i|i|]; simpl in Hstep.
  all: try (destruct (tabs st !! i) as [t|] eqn:Hi; [|discriminate];
            simpl in Hstep; unfold worker_step in Hstep;
            destruct (running t); [|discriminate]; simpl in Hstep;
            destruct (at_phase t) as [| |j|j] eqn:Hphase;
            try discriminate).
  all: try (inversion Hstep; subst; clear Hstep; by left).
  - destruct (main st) as [[|j pending]|]; try discriminate.
    destruct (put j (queue st)); [|discriminate].
    inversion Hstep; subst. by left.
  - destruct (get (queue st)) as [[j q]|]; [|discriminate].
    inversion Hstep; subst. by left.
  - destruct (_load_page cfg (job_url j) parser env)
      as [[[[result|error] w'] log]|]; [| |discriminate];
      simpl in Hstep; inversion Hstep; subst; clear Hstep.
    + right. exists i, t, j, result. done.
    + by left.
  - destruct (task_done (queue st)); [|discriminate].
    inversion Hstep; subst. by left.
  - destruct (main st) as [[|j pending]|]; try discriminate.
    destruct (join_ready (queue st)); [|discriminate].
    inversion Hstep; subst. by left.
Qed.

Lemma run_flags ls : forall st st',
  Forall (fun o => is_successful o = truthy (data o)) (session_result st) ->
  run cfg parser ls st = Some st' ->
  Forall (fun o => is_successful o = truthy (data o)) (session_result st').
Proof.
  induction ls as [|l ls IH]; intros st st' Hall Hrun; simpl in Hrun.
  - by inversion Hrun; subst.
  - destruct (step cfg parser l st) as [st1|] eqn:Hstep; [|discriminate].
    simpl in Hrun. apply (IH st1); [|exact Hrun].
    destruct (step_results _ _ _ Hstep)
      as [->|(i & t & j & result & _ & _ & ->)]; [done|].
    apply Forall_app. split; [done|]. constructor; [|constructor].
    destruct (record_outcome_spec (job_url j) result) as (_ & -> & ->).
    done.
Qed.

Lemma outcomes_flags urls ls st :
  run cfg parser ls (init urls) = Some st ->
  Forall (fun o => is_successful o = truthy (data o)) (session_result st).
Proof. intros Hrun. eapply run_flags; [|exact Hrun]. constructor. Qed.

(** X7.  At every point of every schedule, each outcome recorded is for
    an address that was submitted, and is marked successful exactly when
    its data is truthy. *)
Theorem outcomes_flag_is_truthiness urls ls st :
  run cfg parser ls (init urls) = Some st ->
  Forall (fun o => url o ∈ urls /\ is_successful o = truthy (data o))
         (session_result st).
Proof.
  intros Hrun. apply Forall_forall. intros o Ho. split.
  - destruct (session_inv_reached _ _ _ Hrun) as [Hcons _ _].
    rewrite <- Hcons. apply elem_of_app. left.
    by apply list_elem_of_fmap_2.
  - pose proof (outcomes_flags _ _ _ Hrun) as Hall.
    eapply Forall_forall in Hall; [exact Hall|exact Ho].
Qed.

(** X8.  The outcomes are only ever appended to: what a session has
    recorded at some point is a prefix of what it has recorded later. *)
Theorem results_only_grow ls : forall st st',
  run cfg parser ls st = Some st' ->
  session_result st `prefix_of` session_result st'.
Proof.
  induction ls as [|l ls IH]; intros st st' Hrun; simpl in Hrun.
  - by inversion Hrun; subst.
  - destruct (step cfg parser l st) as [st1|] eqn:Hstep; [|discriminate].
    simpl in Hrun. etransitivity; [|apply (IH st1), Hrun].
    destruct (step_results _ _ _ Hstep)
      as [->|(i & t & j & result & _ & _ & ->)]; [done|].
    by apply prefix_app_r.
Qed.

Lemma loading_le (ts : list task) :
  (length (loading ts) <= length ts)%nat.
Proof.
  unfold loading. induction ts as [|t ts IH]; [done|].
  rewrite bind_cons, length_app. unfold loading_of at 1.
  destruct (at_phase t); simpl; lia.
Qed.

(** X9.  At every point of every schedule, the pages being loaded are at
    most [min(len(urls), WORKER_LIMIT)]. *)
Theorem loads_in_flight_bounded urls ls st :
  0 <= WORKER_LIMIT cfg ->
  run cfg parser ls (init urls) = Some st ->
  len (loading (tabs st)) <= Z.min (len urls) (WORKER_LIMIT cfg).
Proof.
  intros Hlimit Hrun.
  apply run_frame in Hrun as (Htabs & _).
  pose proof (loading_le (tabs st)) as Hle.
  pose proof (pool_size cfg urls) as Hpool.
  unfold new_tabs_count in Hpool. pose proof (len_nonneg urls).
  unfold len in *.
  destruct (Z.ltb_spec (Z.of_nat (length urls)) (WORKER_LIMIT cfg)); lia.
Qed.

(** X10.  A session over no address returns at once, and whatever the
    schedule it returns no outcome. *)
Theorem empty_session_returns_nothing :
  _create_session cfg parser [] [Join] = Some []
  /\ forall ls results,
       _create_session cfg parser [] ls = Some results -> results = [].
Proof.
  split; [reflexivity|].
  intros ls results Hret. unfold _create_session in Hret.
  destruct (run cfg parser ls (init [])) as [st|] eqn:Hrun; [|discriminate].
  simpl in Hret. unfold returned in Hret.
  destruct (main st) eqn:Hmain; [discriminate|].
  inversion Hret; subst.
  destruct (returned_session_conserved _ _ _ Hrun Hmain) as (Hperm & _).
  apply Permutation_nil_r in Hperm. by apply fmap_nil_inv in Hperm.
Qed.

(** Without any worker no step records an outcome. *)
Lemma run_without_workers ls : forall st st',
  tabs st = [] ->
  run cfg parser ls st = Some st' ->
  session_result st' = session_result st.
Proof.
  induction ls as [|l ls IH]; intros st st' Htabs Hrun; simpl in Hrun.
  - by inversion Hrun; subst.
  - destruct (step cfg parser l st) as [st1|] eqn:Hstep; [|discriminate].
    simpl in Hrun.
    assert (Htabs1 : tabs st1 = []).
    { apply step_frame in Hstep as (Hlen & _). rewrite Htabs in Hlen.
      by apply nil_length_inv. }
    rewrite (IH st1 st' Htabs1 Hrun).
    destruct (step_results _ _ _ Hstep)
      as [->|(i & t & j & result & Hi & _)]; [done|].
    rewrite Htabs in Hi. done.
Qed.

(** X11.  With [WORKER_LIMIT <= 0] no worker is spawned, and a session
    over at least one address never returns, whatever the schedule. *)
Theorem no_worker_no_return urls ls :
  WORKER_LIMIT cfg <= 0 ->
  urls <> [] ->
  tabs (init urls) = []
  /\ _create_session cfg parser urls ls = None.
Proof.
  intros Hlimit Hurls.
  assert (Htabs : tabs (init urls) = []).
  { apply nil_length_inv.
    pose proof (pool_size cfg urls) as Hpool.
    unfold new_tabs_count in Hpool.
    assert (1 <= len urls) by (destruct urls; [done|unfold len; simpl; lia]).
    destruct (Z.ltb_spec (len urls) (WORKER_LIMIT cfg)); [lia|].
    unfold len in Hpool. lia. }
  split; [exact Htabs|].
  unfold _create_session.
  destruct (run cfg parser ls (init urls)) as [st|] eqn:Hrun; [|done].
  simpl. unfold returned. destruct (main st) eqn:Hmain; [done|].
  destruct (returned_session_conserved _ _ _ Hrun Hmain) as (Hperm & _).
  rewrite (run_without_workers _ _ _ Htabs Hrun) in Hperm.
  simpl in Hperm. symmetry in Hperm. apply Permutation_nil_r in Hperm.
  done.
Qed.

(** What a step does to the pool: nothing, or it moves one running task,
    or it is the return, which stops every task where it stands. *)
Lemma step_tabs l st st' :
  step cfg parser l st = Some st' ->
  tabs st' = tabs st
  \/ (exists i t t', tabs st !! i = Some t /\ running t = true
                     /\ tabs st' = <[i := t']> (tabs st))
  \/ (join_ready (queue st) = true /\ tabs st' = map stop (tabs st)).
Proof.
  intros Hstep.
  destruct l as [i| |i|i env|i|i|]; simpl in Hstep.
  all: try (destruct (tabs st !! i) as [t|] eqn:Hi; [|discriminate];
            simpl in Hstep; unfold worker_step in Hstep;
            destruct (running t) eqn:Hrunning; [|discriminate];
            simpl in Hstep;
            destruct (at_phase t) as [| |j|j] eqn:Hphase;
            try discriminate).
  all: try (inversion Hstep; subst; clear Hstep; right; left;
            eexists i, t, _; done).
  - destruct (main st) as [[|j pending]|]; try discriminate.
    destruct (put j (queue st)); [|discriminate].
    inversion Hstep; subst. by left.
  - destruct (get (queue st)) as [[j q]|]; [|discriminate].
    inversion Hstep; subst. right; left. eexists i, t, _. done.
  - destruct (_load_page cfg (job_url j) parser env)
      as [[[[result|error] w'] log]|]; [| |discriminate];
      simpl in Hstep; inversion Hstep; subst; clear Hstep;
      right; left; eexists i, t, _; done.
  - destruct (task_done (queue st)); [|discriminate].
    inversion Hstep; subst. right; left. eexists i, t, _. done.
  - destruct (main st) as [[|j pending]|]; try discriminate.
    destruct (join_ready (queue st)) eqn:Hready; [|discriminate].
    inversion Hstep; subst. right; right. done.
Qed.

(** A job held without acknowledgement keeps the queue unfinished. *)
Lemma held_job_unfinished urls st :
  session_inv urls st ->
  holds_unacknowledged st ->
  1 <= unfinished_tasks (queue st).
Proof.
  intros [_ Hunf _] (i & t & j & Hi & _ & Hphase).
  rewrite Hunf.
  pose proof (len_nonneg (items (queue st))).
  pose proof (len_nonneg (loading (tabs st))).
  pose proof (len_nonneg (sleeping (tabs st))).
  destruct Hphase as [Hphase|Hphase].
  - unfold loading at 1. rewrite (bind_lookup loading_of _ _ _ Hi).
    unfold loading_of at 1. rewrite Hphase. unfold len in *. simpl. lia.
  - unfold sleeping at 1. rewrite (bind_lookup sleeping_of _ _ _ Hi).
    unfold sleeping_of at 1. rewrite Hphase. unfold len in *. simpl. lia.
Qed.

Lemma held_job_step urls l st st' :
  session_inv urls st ->
  holds_unacknowledged st ->
  step cfg parser l st = Some st' ->
  holds_unacknowledged st'.
Proof.
  intros Hinv Hheld Hstep.
  pose proof (held_job_unfinished _ _ Hinv Hheld) as Hunf.
  destruct Hheld as (i & t & j & Hi & Hstopped & Hphase).
  destruct (step_tabs _ _ _ Hstep)
    as [Heq|[(i' & t1 & t' & Hi' & Hrunning & Heq)|[Hready _]]].
  - exists i, t, j. by rewrite Heq.
  - exists i, t, j. rewrite Heq. split; [|done].
    rewrite list_lookup_insert_ne; [done|]. intros ->. congruence.
  - unfold join_ready in Hready. lia.
Qed.

Lemma held_job_run urls ls : forall st st',
  session_inv urls st ->
  holds_unacknowledged st ->
  run cfg parser ls st = Some st' ->
  session_inv urls st' /\ holds_unacknowledged st'.
Proof.
  induction ls as [|l ls IH]; intros st st' Hinv Hheld Hrun; simpl in Hrun.
  - by inversion Hrun; subst.
  - destruct (step cfg parser l st) as [st1|] eqn:Hstep; [|discriminate].
    simpl in Hrun. apply (IH st1); [| |exact Hrun].
    + eapply session_inv_step; eauto.
    + eapply held_job_step; eauto.
Qed.

(** X12.  Once a worker has stopped while loading a job, or before
    acknowledging it, the session never returns, whatever happens next. *)
Theorem dead_worker_blocks_return urls ls st :
  run cfg parser ls (init urls) = Some st ->
  holds_unacknowledged st ->
  forall ls', _create_session cfg parser urls (ls ++ ls') = None.
Proof.
  intros Hrun Hheld ls'. unfold _create_session.
  rewrite run_app, Hrun. simpl.
  destruct (run cfg parser ls' st) as [st'|] eqn:Hrun'; [|done].
  simpl.
  destruct (held_job_run _ _ _ _ (session_inv_reached _ _ _ Hrun) Hheld Hrun')
    as [Hinv' Hheld'].
  pose proof (held_job_unfinished _ _ Hinv' Hheld') as Hunf.
  unfold returned. destruct (main st') eqn:Hmain; [done|].
  destruct (inv_returned _ _ Hinv' Hmain) as [Hzero _]. lia.
Qed.

(** X13.  After the return nothing happens any more: every job is
    acknowledged, the queue is empty, every task is stopped and no step
    of the session is possible. *)
Theorem nothing_runs_after_return urls ls st :
  run cfg parser ls (init urls) = Some st ->
  main st = Returned ->
  Forall (fun t => running t = false) (tabs st)
  /\ items (queue st) = []
  /\ unfinished_tasks (queue st) = 0
  /\ forall l, step cfg parser l st = None.
Proof.
  intros Hrun Hmain.
  destruct (returned_session_conserved _ _ _ Hrun Hmain) as (_ & Hitems & _).
  destruct (inv_returned _ _ (session_inv_reached _ _ _ Hrun) Hmain)
    as [Hzero Hstopped].
  split; [exact Hstopped|]. split; [exact Hitems|]. split; [exact Hzero|].
  intros l.
  destruct l as [i| |i|i env|i|i|]; simpl; rewrite ?Hmain; try done.
  all: destruct (tabs st !! i) as [t|] eqn:Hi; [|done]; simpl;
       rewrite Forall_lookup in Hstopped;
       unfold worker_step; by rewrite (Hstopped i t Hi).
Qed.

(** A session over one address that returns returns exactly one outcome,
    for that address. *)
Lemma session_over_one_address u ls results :
  _create_session cfg parser [u] ls = Some results ->
  exists o, results = [o] /\ url o = u
            /\ is_successful o = truthy (data o).
Proof.
  intros Hret. unfold _create_session in Hret.
  destruct (run cfg parser ls (init [u])) as [st|] eqn:Hrun; [|discriminate].
  simpl in Hret. unfold returned in Hret.
  destruct (main st) eqn:Hmain; [discriminate|].
  inversion Hret; subst; clear Hret.
  destruct (returned_session_conserved _ _ _ Hrun Hmain) as (Hperm & _).
  apply Permutation_singleton_r in Hperm.
  pose proof (outcomes_flags _ _ _ Hrun) as Hflags.
  destruct (session_result st) as [|o [|o' rest]]; try discriminate.
  exists o. split; [done|]. split; [by inversion Hperm|].
  by inversion Hflags.
Qed.

(** X14.  [fetch_listing] over one address reads the data of the only
    outcome of its session, which is the outcome of that address, as the
    comment of lines 190-191 says; it leaves the products as they are. *)
Theorem fetch_listing_reads_the_only_outcome u self ls rest self' rest' :
  fetch_listing (scheduled_session cfg parser) [u] self (ls :: rest)
  = Some (self', rest') ->
  exists o,
    _create_session cfg parser [u] ls = Some [o]
    /\ url o = u
    /\ is_successful o = truthy (data o)
    /\ listings self' = data o
    /\ products self' = products self
    /\ rest' = rest.
Proof.
  unfold fetch_listing, scheduled_session. intros Hfetch.
  destruct (_create_session cfg parser [u] ls) as [results|] eqn:Hsession;
    [|discriminate].
  destruct (session_over_one_address _ _ _ Hsession)
    as (o & -> & Hurl & Hflag).
  simpl in Hfetch. inversion Hfetch; subst. exists o. done.
Qed.
End session_more.

Lemma outcomes_flag_is_truthiness_witness :
  exists st,
    run cfg_two_workers scripted_parser interleaved
      (create_session_init cfg_two_workers three_urls) = Some st
    /\ Forall (fun o => url o ∈ three_urls
                        /\ is_successful o = truthy (data o))
              (session_result st).
Proof.
  eexists. split; [vm_compute; reflexivity|].
  apply (outcomes_flag_is_truthiness cfg_two_workers scripted_parser
           three_urls interleaved).
  vm_compute. reflexivity.
Defined.

Lemma results_only_grow_witness :
  exists st,
    run cfg_two_workers scripted_parser interleaved
      (create_session_init cfg_two_workers three_urls) = Some st
    /\ session_result (create_session_init cfg_two_workers three_urls)
       `prefix_of` session_result st.
Proof.
  eexists. split; [vm_compute; reflexivity|].
  apply (results_only_grow cfg_two_workers scripted_parser interleaved).
  vm_compute. reflexivity.
Defined.

Lemma loads_in_flight_bounded_witness :
  exists st,
    run cfg_two_workers scripted_parser
      [NewPage 0%nat; NewPage 1%nat; Put; Put; Get 0%nat; Get 1%nat]
      (create_session_init cfg_two_workers three_urls) = Some st
    /\ len (loading (tabs st)) <= 2.
Proof.
  eexists. split; [vm_compute; reflexivity|].
  apply (loads_in_flight_bounded cfg_two_workers scripted_parser three_urls
           [NewPage 0%nat; NewPage 1%nat; Put; Put; Get 0%nat; Get 1%nat]).
  - simpl. lia.
  - vm_compute. reflexivity.
Defined.

Lemma empty_session_returns_nothing_witness :
  _create_session cfg_two_workers scripted_parser [] [Join] = Some []
  /\ ([] : list ScrapeResult) = [].
Proof.
  destruct (empty_session_returns_nothing cfg_two_workers scripted_parser)
    as [Hjoin Hany].
  split; [exact Hjoin|]. exact (Hany [Join] [] Hjoin).
Defined.

Lemma no_worker_no_return_witness :
  WORKER_LIMIT cfg_no_worker <= 0
  /\ three_urls <> []
  /\ tabs (create_session_init cfg_no_worker three_urls) = []
  /\ _create_session cfg_no_worker scripted_parser three_urls
       [Put; Put; Put; Join]
     = None.
Proof.
  split; [simpl; lia|]. split; [discriminate|].
  apply (no_worker_no_return cfg_no_worker scripted_parser three_urls
           [Put; Put; Put; Join]); [simpl; lia|discriminate].
Defined.

Lemma dead_worker_blocks_return_witness :
  _create_session cfg_two_workers scripted_parser [START_URL]
    (dies_loading ++ [Join]) = None.
Proof.
  eapply (dead_worker_blocks_return cfg_two_workers scripted_parser
            [START_URL] dies_loading).
  - vm_compute. reflexivity.
  - exists 0%nat. eexists. eexists.
    split; [reflexivity|]. split; [reflexivity|]. left. reflexivity.
Defined.

Lemma nothing_runs_after_return_witness :
  exists st,
    run cfg_two_workers scripted_parser interleaved
      (create_session_init cfg_two_workers three_urls) = Some st
    /\ main st = Returned
    /\ Forall (fun t => running t = false) (tabs st)
    /\ items (queue st) = []
    /\ unfinished_tasks (queue st) = 0
    /\ forall l, step cfg_two_workers scripted_parser l st = None.
Proof.
  eexists. split; [vm_compute; reflexivity|]. split; [reflexivity|].
  apply (nothing_runs_after_return cfg_two_workers scripted_parser
           three_urls interleaved).
  - vm_compute. reflexivity.
  - reflexivity.
Defined.

Lemma fetch_listing_reads_the_only_outcome_witness :
  exists o,
    _create_session cfg_two_workers scripted_parser [START_URL]
      (round_of_one loads_fine) = Some [o]
    /\ url o = START_URL
    /\ is_successful o = truthy (data o)
    /\ product_data = data o
    /\ ([] : list ScrapeResult) = []
    /\ ([] : list (list (label (list load_script)))) = [].
Proof.
  apply (fetch_listing_reads_the_only_outcome cfg_two_workers scripted_parser
           START_URL (EcommScraper_init START_URL "https://www.adidas.co.id")
           (round_of_one loads_fine) []
           {| start_url := START_URL; base_url := "https://www.adidas.co.id";
              listings := product_data; products := [] |} []).
  vm_compute. reflexivity.
Defined.

(** ** More on the item fetch *)

Section fetch_more.
Context {W : Type} `{!Playwright W}.
Variable cfg : config.
Variable parser : extractor W.

Local Abbreviation session := (scheduled_session cfg parser).
Local Abbreviation ok := (fun item : ScrapeResult => is_successful item = true).

(** A scheduled session uses up one schedule and gives one outcome per
    address. *)
Lemma scheduled_session_spec urls schedules attempt rest :
  session urls schedules = Some (attempt, rest) ->
  map url attempt ≡ₚ urls
  /\ exists ls, schedules = ls :: rest.
Proof.
  unfold scheduled_session. destruct schedules as [|ls schedules]; [done|].
  destruct (_create_session cfg parser urls ls) as [results|] eqn:Hs;
    [|done].
  simpl. intros Heq. inversion Heq; subst. split; [|by exists ls].
  unfold _create_session in Hs.
  destruct (run cfg parser ls (create_session_init cfg urls)) as [st|]
    eqn:Hrun; [|discriminate].
  simpl in Hs. unfold returned in Hs.
  destruct (main st) eqn:Hmain; [discriminate|]. inversion Hs; subst.
  by destruct (returned_session_conserved _ _ _ _ _ Hrun Hmain).
Qed.

Lemma scheduled_sessions_complete urls schedules attempt rest :
  session urls schedules = Some (attempt, rest) ->
  map url attempt ≡ₚ urls.
Proof. intros Hs. by destruct (scheduled_session_spec _ _ _ _ Hs). Qed.

Lemma failed_in_attempt (attempt : list ScrapeResult) u urls :
  map url (filter (fun item => is_successful item = false) attempt)
  = u :: urls ->
  ~ Forall ok attempt.
Proof.
  intros Hfailed Hall.
  destruct (filter (fun item => is_successful item = false) attempt)
    as [|item items] eqn:Hfilter; [discriminate|].
  assert (Hin : item ∈ filter (fun item => is_successful item = false)
                       attempt) by (rewrite Hfilter; left).
  apply list_elem_of_filter in Hin as [Hfalse Hin].
  rewrite Forall_forall in Hall. specialize (Hall item Hin). simpl in Hall.
  congruence.
Qed.

Lemma successes_ok (attempt : list ScrapeResult) :
  Forall ok (filter (fun item => is_successful item = true) attempt).
Proof. apply Forall_forall. intros item Hin.
       by apply list_elem_of_filter in Hin as [? _]. Qed.

(** The products of a loop that leaves no failure behind: one outcome per
    address. *)
Lemma fetch_products_loop_exact remaining_retries :
  forall urls result schedules prods rest,
    fetch_products_loop session remaining_retries urls result schedules
    = Some (prods, rest) ->
    Forall ok prods ->
    (remaining_retries = 0%nat -> urls = [] \/ ~ Forall ok result) ->
    map url prods ≡ₚ map url result ++ urls.
Proof.
  induction remaining_retries as [|r IH];
    intros urls result schedules prods rest Hrun Hall Hlast.
  - simpl in Hrun. inversion Hrun; subst.
    destruct (Hlast eq_refl) as [->|Hnot]; [by rewrite app_nil_r|done].
  - destruct urls as [|u urls];
      [inversion Hrun; subst; by rewrite app_nil_r|].
    rewrite fetch_products_loop_unfold in Hrun.
    destruct (session (u :: urls) schedules) as [[attempt s1]|] eqn:Hs;
      [|discriminate].
    cbn [mbind option_bind] in Hrun.
    pose proof (scheduled_sessions_complete _ _ _ _ Hs) as Hperm.
    pose proof (partition_by_success attempt) as Hpart.
    destruct (map url (filter (fun item => is_successful item = false)
                         attempt)) as [|u1 urls1] eqn:Hfailed.
    + inversion Hrun; subst. rewrite map_app, <- Hperm, <- Hpart.
      by rewrite app_nil_r.
    + destruct r as [|r].
      * simpl in Hrun. inversion Hrun; subst.
        apply Forall_app in Hall as [_ Hall].
        by apply failed_in_attempt in Hfailed.
      * change (Nat.eqb (S r) 0) with false in Hrun. cbv iota in Hrun.
        apply IH in Hrun; [|done|done].
        rewrite Hrun, map_app, <- app_assoc, Hpart, Hperm. done.
Qed.

(** The schedules a loop uses up: at most one per round left, and all of
    them when a failure ends up in the products. *)
Lemma fetch_products_loop_rounds remaining_retries :
  forall urls result schedules prods rest,
    fetch_products_loop session remaining_retries urls result schedules
    = Some (prods, rest) ->
    exists used,
      schedules = used ++ rest
      /\ (length used <= remaining_retries)%nat
      /\ (urls = [] -> used = [] /\ prods = result)
      /\ (Forall ok result -> ~ Forall ok prods ->
          length used = remaining_retries).
Proof.
  induction remaining_retries as [|r IH];
    intros urls result schedules prods rest Hrun.
  - simpl in Hrun. inversion Hrun; subst. exists []. done.
  - destruct urls as [|u urls].
    { inversion Hrun; subst. exists []. repeat split; try done.
      simpl. lia. }
    rewrite fetch_products_loop_unfold in Hrun.
    destruct (session (u :: urls) schedules) as [[attempt s1]|] eqn:Hs;
      [|discriminate].
    cbn [mbind option_bind] in Hrun.
    destruct (scheduled_session_spec _ _ _ _ Hs) as [_ [ls ->]].
    destruct (map url (filter (fun item => is_successful item = false)
                         attempt)) as [|u1 urls1] eqn:Hfailed.
    + inversion Hrun; subst. exists [ls].
      split; [done|]. split; [simpl; lia|]. split; [done|].
      intros Hres Hnot. exfalso. apply Hnot, Forall_app.
      split; [done|apply successes_ok].
    + apply IH in Hrun as (used & -> & Hlen & _ & Hfull).
      exists (ls :: used). split; [done|]. split; [simpl; lia|].
      split; [done|]. intros Hres Hnot. simpl. f_equal.
      destruct r as [|r]; [lia|]. apply Hfull; [|done].
      simpl. apply Forall_app. split; [done|apply successes_ok].
Qed.

(** X15.  [fetch_products] leaves no address out: every address it is
    given has at least one outcome among the products. *)
Theorem products_omit_no_address urls schedules prods rest :
  fetch_products session urls schedules = Some (prods, rest) ->
  urls ⊆+ map url prods.
Proof.
  apply fetch_products_no_omission.
  intros urls0 s attempt s'. apply scheduled_sessions_complete.
Qed.

(** X16.  When every outcome among the products is successful, the
    products hold exactly one outcome per address. *)
Theorem successful_products_one_per_address urls schedules prods rest :
  fetch_products session urls schedules = Some (prods, rest) ->
  Forall (fun item => is_successful item = true) prods ->
  map url prods ≡ₚ urls.
Proof.
  intros Hrun Hall.
  apply (fetch_products_loop_exact 3 urls [] schedules prods rest Hrun Hall).
  discriminate.
Qed.

(** X17.  [fetch_products] runs at most three sessions, none at all when
    it is given no address, and all three whenever a failed outcome ends
    up among the products. *)
Theorem at_most_three_rounds urls schedules prods rest :
  fetch_products session urls schedules = Some (prods, rest) ->
  exists used,
    schedules = used ++ rest
    /\ (length used <= 3)%nat
    /\ (urls = [] -> used = [] /\ prods = [])
    /\ ((exists item, item ∈ prods /\ is_successful item = false) ->
        length used = 3%nat).
Proof.
  intros Hrun.
  destruct (fetch_products_loop_rounds 3 urls [] schedules prods rest Hrun)
    as (used & Heq & Hlen & Hnil & Hfull).
  exists used. split; [done|]. split; [done|]. split; [done|].
  intros (item & Hin & Hfalse). apply Hfull; [constructor|].
  intros Hall. rewrite Forall_forall in Hall. specialize (Hall item Hin).
  simpl in Hall. congruence.
Qed.

(** ** The whole pipeline *)

Variable listing_parser : extractor W.

Local Abbreviation listing_session := (scheduled_session cfg listing_parser).

(** X18.  When the outcome of the listing is marked unsuccessful (the
    crawl failed, or found no link), [start] runs no item session and
    returns no product. *)
Theorem failed_listing_fetches_nothing start_url base_url ls rest o :
  _create_session cfg listing_parser [start_url] ls = Some [o] ->
  is_successful o = false ->
  start listing_session session (EcommScraper_init start_url base_url)
    (ls :: rest)
  = Started []
      {| start_url := start_url; base_url := base_url;
         listings := data o; products := [] |}
      rest.
Proof.
  intros Hsession Hfailed.
  destruct (session_over_one_address _ _ _ _ _ Hsession)
    as (o' & Heq & _ & Hflag).
  inversion Heq; subst o'. rewrite Hfailed in Hflag.
  unfold start, fetch_listing, scheduled_session. simpl.
  rewrite Hsession. simpl. by rewrite <- Hflag.
Qed.

(** X19.  What [start] returns has an outcome for every address of the
    listing. *)
Theorem start_omits_no_listed_address self schedules prods self' rest urls :
  start listing_session session self schedules = Started prods self' rest ->
  truthy (listings self') = true ->
  listing_urls (listings self') = Some urls ->
  urls ⊆+ map url prods.
Proof.
  unfold start. intros Hstart Htruthy Hurls.
  destruct (fetch_listing listing_session [start_url self] self schedules)
    as [[self1 s1]|]; [|discriminate].
  assert (Hsame : forall (u : list string) (a b : EcommScraper) s s',
             fetch_products_into session u a s = Some (b, s') ->
             listings b = listings a
             /\ fetch_products session u s = Some (products b, s')).
  { unfold fetch_products_into. intros u a b s s' Hf.
    destruct (fetch_products session u s) as [[r s2]|]; [|discriminate].
    simpl in Hf. by inversion Hf; subst. }
  destruct (truthy (listings self1)) eqn:Htruthy1.
  - destruct (listing_urls (listings self1)) as [urls1|] eqn:Hurls1;
      [|discriminate].
    destruct (fetch_products_into session urls1 self1 s1) as [[self2 s2]|]
      eqn:Hfetch; [|discriminate].
    inversion Hstart; subst.
    destruct (Hsame _ _ _ _ _ Hfetch) as [Hlist Hprods].
    rewrite Hlist, Hurls1 in Hurls. inversion Hurls; subst.
    eapply fetch_products_no_omission; [|exact Hprods].
    intros urls0 s attempt s'. apply scheduled_sessions_complete.
  - inversion Hstart; subst. congruence.
Qed.
End fetch_more.

Lemma products_omit_no_address_witness :
  exists prods,
    fetch_products (scheduled_session cfg_two_workers scripted_parser)
      two_urls late_success = Some (prods, [])
    /\ two_urls ⊆+ map url prods.
Proof.
  eexists. split; [vm_compute; reflexivity|].
  apply (products_omit_no_address cfg_two_workers scripted_parser two_urls
           late_success _ []).
  vm_compute. reflexivity.
Defined.

Lemma successful_products_one_per_address_witness :
  exists prods,
    fetch_products (scheduled_session cfg_two_workers scripted_parser)
      two_urls [round_of_two loads_fine loads_fine] = Some (prods, [])
    /\ map url prods ≡ₚ two_urls.
Proof.
  eexists. split; [vm_compute; reflexivity|].
  apply (successful_products_one_per_address cfg_two_workers scripted_parser
           two_urls [round_of_two loads_fine loads_fine] _ []).
  - vm_compute. reflexivity.
  - repeat constructor.
Defined.

Lemma at_most_three_rounds_witness :
  exists used,
    fetch_products (scheduled_session cfg_two_workers scripted_parser)
      two_urls late_success
    = Some ([record_outcome "/a.html" product_data;
             record_outcome "/a.html" product_data;
             record_outcome "/b.html" PyNone], [])
    /\ late_success = used ++ []
    /\ (length used <= 3)%nat.
Proof.
  assert (Hrun :
    fetch_products (scheduled_session cfg_two_workers scripted_parser)
      two_urls late_success
    = Some ([record_outcome "/a.html" product_data;
             record_outcome "/a.html" product_data;
             record_outcome "/b.html" PyNone], []))
    by (vm_compute; reflexivity).
  destruct (at_most_three_rounds cfg_two_workers scripted_parser two_urls
              late_success _ [] Hrun) as (used & Heq & Hlen & _).
  exists used. split; [exact Hrun|]. split; [exact Heq|]. exact Hlen.
Defined.

Lemma failed_listing_fetches_nothing_witness :
  start (scheduled_session cfg_two_workers scripted_parser)
    (scheduled_session cfg_two_workers scripted_parser)
    (EcommScraper_init START_URL "https://www.adidas.co.id")
    [round_of_one never_lucky; round_of_two loads_fine loads_fine]
  = Started []
      {| start_url := START_URL; base_url := "https://www.adidas.co.id";
         listings := PyNone; products := [] |}
      [round_of_two loads_fine loads_fine].
Proof.
  apply (failed_listing_fetches_nothing cfg_two_workers scripted_parser
           scripted_parser START_URL "https://www.adidas.co.id"
           (round_of_one never_lucky) [round_of_two loads_fine loads_fine]
           (record_outcome START_URL PyNone)).
  - vm_compute. reflexivity.
  - reflexivity.
Defined.

Lemma start_omits_no_listed_address_witness :
  exists prods self',
    start (scheduled_session cfg_two_workers scripted_parser)
      (scheduled_session cfg_two_workers scripted_parser)
      (EcommScraper_init START_URL "https://www.adidas.co.id") whole_run
    = Started prods self' []
    /\ two_urls ⊆+ map url prods.
Proof.
  eexists. eexists. split; [vm_compute; reflexivity|].
  eapply (start_omits_no_listed_address cfg_two_workers scripted_parser
            scripted_parser
            (EcommScraper_init START_URL "https://www.adidas.co.id")
            whole_run).
  - vm_compute. reflexivity.
  - reflexivity.
  - reflexivity.
Defined.

(** ** More on the listing crawl *)

Section listing_more.
Variable web : site.

Lemma listing_loop_step fuel page page' product_urls :
  page_after web page page' ->
  listing_loop web (S fuel) page product_urls
  = listing_loop web fuel page' (product_urls ++ product_cards page).
Proof.
  intros (next & Hnext & Htruthy & Hweb).
  cbn [listing_loop].
  by rewrite get_urls_on_page_cards, Hnext, Htruthy, Hweb.
Qed.

(** X20.  When the crawl reaches a page whose next link fails to load,
    the parser raises [NavigationError]: none of the links collected on
    the pages before is returned. *)
Theorem broken_next_link_raises page pages page' :
  walk web page pages page' ->
  broken_next web page' ->
  forall fuel, (length pages < fuel)%nat ->
    _listing_parser web fuel page = Some (Raise NavigationError, page').
Proof.
  intros Hwalk (next & Hnext & Htruthy & Hweb) fuel.
  unfold _listing_parser. generalize (@nil (option string)) as product_urls.
  revert fuel.
  induction Hwalk as [page|page page1 pages page' Hafter _ IH];
    intros fuel product_urls Hfuel.
  - destruct fuel as [|fuel]; [simpl in Hfuel; lia|].
    cbn [listing_loop]. by rewrite Hnext, Htruthy, Hweb.
  - destruct fuel as [|fuel]; [simpl in Hfuel; lia|].
    rewrite (listing_loop_step _ _ _ _ Hafter).
    apply IH; [done..|]. simpl in Hfuel. lia.
Qed.

(** X21.  The loop has no guard against a listing that never ends: when
    every page the crawl can reach has a next link that loads, the parser
    does not return, however long it runs. *)
Theorem endless_listing_never_returns page :
  (forall pages page', walk web page pages page' ->
                       exists page'', page_after web page' page'') ->
  forall fuel, _listing_parser web fuel page = None.
Proof.
  intros Hendless fuel. unfold _listing_parser.
  generalize (@nil (option string)) as product_urls.
  revert page Hendless.
  induction fuel as [|fuel IH]; intros page Hendless product_urls; [done|].
  destruct (Hendless [] page (walk_here web page)) as [page1 Hafter].
  rewrite (listing_loop_step _ _ _ _ Hafter).
  apply IH. intros pages page' Hwalk.
  apply (Hendless (page :: pages)). by eapply walk_on.
Qed.
End listing_more.

Lemma looping_walk_from page pages page' :
  walk looping_listing page pages page' ->
  page = looping_page -> page' = looping_page.
Proof.
  induction 1 as [page|page page1 pages page' Hafter _ IH]; [done|].
  intros ->. apply IH.
  destruct Hafter as (next & Hnext & _ & Hweb).
  inversion Hnext; subst next. by inversion Hweb.
Qed.

Lemma looping_walk pages page' :
  walk looping_listing looping_page pages page' -> page' = looping_page.
Proof. intros Hwalk. by eapply looping_walk_from. Qed.

Lemma broken_next_link_raises_witness :
  walk broken_listing listing_page_1 [] listing_page_1
  /\ broken_next broken_listing listing_page_1
  /\ _listing_parser broken_listing 5 listing_page_1
     = Some (Raise NavigationError, listing_page_1).
Proof.
  assert (Hwalk : walk broken_listing listing_page_1 [] listing_page_1)
    by constructor.
  assert (Hbroken : broken_next broken_listing listing_page_1)
    by (exists "?page=2"; repeat split; reflexivity).
  split; [exact Hwalk|]. split; [exact Hbroken|].
  apply (broken_next_link_raises broken_listing listing_page_1 []
           listing_page_1 Hwalk Hbroken 5%nat).
  simpl. lia.
Defined.

Lemma endless_listing_never_returns_witness :
  _listing_parser looping_listing 1000 looping_page = None.
Proof.
  apply (endless_listing_never_returns looping_listing looping_page).
  intros pages page' Hwalk. exists looping_page.
  rewrite (looping_walk pages page' Hwalk).
  exists "?page=1". repeat split; reflexivity.
Defined.

(** ** The product parser *)

Lemma sub_non_digits_app (a b : string) :
  sub_non_digits (a +:+ b) = sub_non_digits a +:+ sub_non_digits b.
Proof.
  induction a as [|c a IH]; [done|].
  simpl. destruct (is_digit c); simpl; by rewrite IH.
Qed.

Lemma sub_non_digits_none (s : string) :
  Forall (fun c => is_digit c = false) (String.list_ascii_of_string s) ->
  sub_non_digits s = "".
Proof.
  induction s as [|c s IH]; [done|].
  simpl. intros Hall. inversion Hall as [|? ? Hc Hrest]; subst.
  rewrite Hc. by apply IH.
Qed.

Lemma sub_non_digits_digits (s : string) :
  Forall (fun c => is_digit c = true)
         (String.list_ascii_of_string (sub_non_digits s)).
Proof.
  induction s as [|c s IH]; [constructor|].
  simpl. destruct (is_digit c) eqn:Hc; [|done]. by constructor.
Qed.

Lemma decimal_value_bounds (digits : string) : forall acc,
  Forall (fun c => is_digit c = true) (String.list_ascii_of_string digits) ->
  0 <= acc ->
  acc * 10 ^ Z.of_nat (String.length digits)
  <= decimal_value acc digits
  < (acc + 1) * 10 ^ Z.of_nat (String.length digits).
Proof.
  induction digits as [|c digits IH]; intros acc Hall Hacc.
  - simpl. lia.
  - inversion Hall as [|? ? Hc Hrest]; subst.
    cbn [decimal_value String.length].
    unfold is_digit in Hc. apply andb_true_iff in Hc as [Hlo Hhi].
    apply Nat.leb_le in Hlo, Hhi.
    specialize (IH (10 * acc + (Z.of_nat (Ascii.nat_of_ascii c) - 48))
                  Hrest ltac:(lia)).
    rewrite Nat2Z.inj_succ, Z.pow_succ_r by lia.
    nia.
Qed.

(** X22.  A price text without any digit, or no text at all, makes
    [raw_price] raise. *)
Theorem raw_price_without_digit_raises (price : string) :
  Forall (fun c => is_digit c = false) (String.list_ascii_of_string price) ->
  raw_price (Some price) = Raise ExtractionError
  /\ raw_price None = Raise ExtractionError.
Proof.
  intros Hall. split; [|reflexivity].
  unfold raw_price. by rewrite (sub_non_digits_none _ Hall).
Qed.

(** X23.  [raw_price] ignores everything that is not a digit: a text
    without digit inserted anywhere in the price (currency, spaces,
    separators, a sign) changes nothing. *)
Theorem raw_price_ignores_non_digits (before sep after : string) :
  Forall (fun c => is_digit c = false) (String.list_ascii_of_string sep) ->
  raw_price (Some (before +:+ sep +:+ after))
  = raw_price (Some (before +:+ after)).
Proof.
  intros Hall. unfold raw_price.
  by rewrite !sub_non_digits_app, (sub_non_digits_none _ Hall).
Qed.

(** X24.  When [raw_price] returns, the price text has between 1 and 4300
    digits, and the number returned is never negative and has no more
    digits than the text. *)
Theorem raw_price_range (price : string) (n : Z) :
  raw_price (Some price) = Ret n ->
  (1 <= String.length (sub_non_digits price) <= 4300)%nat
  /\ 0 <= n < 10 ^ Z.of_nat (String.length (sub_non_digits price)).
Proof.
  unfold raw_price, int_of_digits. intros Hret.
  destruct (Nat.eqb_spec (String.length (sub_non_digits price)) 0);
    [discriminate|].
  destruct (Nat.ltb_spec 4300 (String.length (sub_non_digits price)));
    [discriminate|].
  inversion Hret; subst. split; [lia|].
  pose proof (decimal_value_bounds _ 0 (sub_non_digits_digits price)
                ltac:(lia)). lia.
Qed.

Section product_more.
Context {W : Type} `{!Locators W}.
Variable strip : string -> string.

(** X25.  Whatever the page holds, a product the parser returns is a
    dictionary with the five keys of the source, hence truthy: the worker
    records it as successful, even when every field is empty. *)
Theorem parsed_product_is_recorded_successful w v w' :
  _product_parser strip w = (Ret v, w') ->
  (exists name color price description img_urls,
      v = PyDict [("name", name); ("color", color); ("price", PyInt price);
                  ("description", PyStr description);
                  ("img_urls", PyList img_urls)])
  /\ truthy v = true
  /\ forall u, record_outcome u v
               = {| url := u; is_successful := true; data := v |}.
Proof.
  unfold _product_parser, and_then, done_with, raising. intros Hparse.
  repeat match type of Hparse with
         | context [match ?x with _ => _ end] =>
             match x with
             | raw_price _ => fail 1
             | _ => destruct x as [[?|?] ?] eqn:?; try discriminate
             end
         end.
  destruct (raw_price _) as [price|]; [|discriminate].
  destruct a2 as [product_desc|]; [|discriminate].
  destruct (get_image_urls w5) as [[img_urls|] w6]; [|discriminate].
  inversion Hparse; subst. split; [|done]. by eexists _, _, _, _, _.
Qed.
End product_more.

Lemma image_loop_gallery (images : list string) count : forall first img_urls g,
  thumbnail_images g = images ->
  (first + count = length images)%nat ->
  exists g',
    image_loop (seq first count) img_urls g
    = (Ret (img_urls
              ++ take count (shown g :: map Some (drop first images))), g')
    /\ thumbnail_images g' = images.
Proof.
  induction count as [|count IH]; intros first img_urls g Himages Hlen.
  - exists g. simpl. by rewrite app_nil_r.
  - destruct (lookup_lt_is_Some_2 images first ltac:(lia)) as [image Himage].
    cbn [seq image_loop]. unfold and_then.
    cbn [locator_get_attribute locator_click gallery_page].
    destruct (IH (S first) (img_urls ++ [shown g])
                {| shown := thumbnail_images g !! first;
                   thumbnail_images := thumbnail_images g |})
      as (g' & Hloop & Hsame); [done|lia|].
    exists g'. split; [|done]. rewrite Hloop. cbn [shown].
    rewrite Himages, Himage, (drop_S _ _ _ Himage), <- app_assoc. done.
Qed.

(** X26.  On a page where a click on a thumbnail shows its image,
    [get_image_urls] returns as many addresses as there are thumbnails,
    but each is read before the click: the first is the image shown when
    the parser starts, the others are the images of all thumbnails but the
    last, whose image is never read. *)
Theorem image_urls_lag_one_click (g : gallery) :
  exists g',
    get_image_urls g
    = (Ret (take (length (thumbnail_images g))
                 (shown g :: map Some (thumbnail_images g))), g')
    /\ thumbnail_images g' = thumbnail_images g
    /\ length (take (length (thumbnail_images g))
                    (shown g :: map Some (thumbnail_images g)))
       = length (thumbnail_images g).
Proof.
  destruct (image_loop_gallery (thumbnail_images g)
              (length (thumbnail_images g)) 0 [] g eq_refl eq_refl)
    as (g' & Hloop & Hsame).
  exists g'. split; [|split; [done|]].
  - unfold get_image_urls, and_then. cbn [locator_all gallery_page].
    exact Hloop.
  - rewrite length_take. simpl. rewrite length_map. lia.
Qed.

Example image_urls_of_three_images :
  (get_image_urls three_images).1
  = Ret [Some "/img/front.jpg"; Some "/img/front.jpg"; Some "/img/side.jpg"].
Proof. reflexivity. Qed.

Lemma raw_price_without_digit_raises_witness :
  raw_price (Some "Rp -,-") = Raise ExtractionError
  /\ raw_price None = Raise ExtractionError.
Proof.
  apply (raw_price_without_digit_raises "Rp -,-"). repeat constructor.
Defined.

Lemma raw_price_ignores_non_digits_witness :
  raw_price (Some ("Rp 1" +:+ "." +:+ "500.000"))
  = raw_price (Some ("Rp 1" +:+ "500.000"))
  /\ raw_price (Some "Rp 1.500.000") = Ret 1500000.
Proof.
  split; [|reflexivity].
  apply (raw_price_ignores_non_digits "Rp 1" "." "500.000").
  repeat constructor.
Defined.

Lemma raw_price_range_witness :
  raw_price (Some "Rp -1.500.000") = Ret 1500000
  /\ 0 <= 1500000 < 10 ^ 7.
Proof.
  split; [reflexivity|].
  exact (proj2 (raw_price_range "Rp -1.500.000" 1500000 eq_refl)).
Defined.

Lemma parsed_product_is_recorded_successful_witness :
  (_product_parser (fun s => s) three_images).1 = Ret parsed_three_images
  /\ truthy parsed_three_images = true
  /\ record_outcome "/p.html" parsed_three_images
     = {| url := "/p.html"; is_successful := true;
          data := parsed_three_images |}.
Proof.
  split; [reflexivity|].
  assert (Hparse :
    _product_parser (fun s => s) three_images
    = (Ret parsed_three_images,
       {| shown := Some "/img/sole.jpg";
          thumbnail_images := thumbnail_images three_images |}))
    by (vm_compute; reflexivity).
  destruct (parsed_product_is_recorded_successful _ _ _ _ Hparse)
    as (_ & Htruthy & Hrecord).
  split; [exact Htruthy|]. apply Hrecord.
Defined.
